(** * Google Cloud Python samples: a shallow embedding of the sample code

    The repository is a corpus of independent Python samples.  Each module
    below embeds one source file: Python values and exceptions are explicit
    data, dictionaries are finite maps (or association lists where the
    iteration order decides the behaviour), calls into vendor SDKs are
    either recorded as events or taken from an explicit interface.

    Part I holds the definitions, Part II the theorems. *)

From Stdlib Require Import ZArith List String Ascii Bool Lia.
From stdpp Require Import base option gmap strings list.

Import ListNotations.
Set Warnings "-register-all,-clear-no-such-hyp".
Local Open Scope string_scope.
Local Open Scope list_scope.
Local Open Scope Z_scope.

(* ===================================================================== *)
(** * Part I: definitions                                                *)
(* ===================================================================== *)

(** ** Python values, truthiness, exceptions *)

Module Py.

(** The JSON-like fragment of Python values the samples manipulate. *)
Inductive value : Type :=
| VNone
| VBool (b : bool)
| VInt (n : Z)
| VStr (s : string)
| VBytes (s : string)
| VList (l : list value)
| VDict (d : list (string * value)).

(** [bool(v)]: what [if v:] and [not v] test. *)
Definition truthy (v : value) : bool :=
  match v with
  | VNone => false
  | VBool b => b
  | VInt n => negb (n =? 0)
  | VStr s => negb (String.eqb s "")
  | VBytes s => negb (String.eqb s "")
  | VList l => match l with [] => false | _ :: _ => true end
  | VDict d => match d with [] => false | _ :: _ => true end
  end.

(** [isinstance(v, dict)] *)
Definition is_dict (v : value) : bool :=
  match v with VDict _ => true | _ => false end.

(** Lookup in a dict literal kept as an association list (first binding). *)
Fixpoint assoc {A : Type} (k : string) (d : list (string * A)) : option A :=
  match d with
  | [] => None
  | (k', v) :: d' => if String.eqb k k' then Some v else assoc k d'
  end.

(** [s.lstrip(c)] and [s.replace(a, b)] for single characters. *)
Fixpoint lstrip (c : ascii) (s : string) : string :=
  match s with
  | String c' s' => if Ascii.eqb c' c then lstrip c s' else s
  | EmptyString => EmptyString
  end.

Fixpoint replace (a b : ascii) (s : string) : string :=
  match s with
  | String c s' => String (if Ascii.eqb c a then b else c) (replace a b s')
  | EmptyString => EmptyString
  end.

(** The exceptions that occur in the modelled code.  [Vendor cls] is an
    exception class of an SDK, named by its class; like the built-in
    errors it derives from [Exception].  [SystemExit] and the classes
    [NonException cls] ([KeyboardInterrupt], [GeneratorExit],
    [asyncio.CancelledError]) derive from [BaseException] only. *)
Inductive exn : Type :=
| KeyError (key : string)
| TypeError (what : string)
| ValueError (what : string)
| AttributeError (attr : string)
| SystemExit (code : Z)
| NonException (cls : string)
| Vendor (cls : string).

(** A computation returns a value or raises. *)
Inductive result (A : Type) : Type :=
| Ok (a : A)
| Raise (e : exn).
Arguments Ok {A} a.
Arguments Raise {A} e.

Definition bind {A B : Type} (r : result A) (k : A -> result B) : result B :=
  match r with
  | Ok a => k a
  | Raise e => Raise e
  end.

(** [d[k]] on a dict: [KeyError] when the key is absent. *)
Definition getitem {A : Type} (d : gmap string A) (k : string) : result A :=
  match d !! k with
  | Some v => Ok v
  | None => Raise (KeyError k)
  end.

(** A round-trip law [g (f x) = x] over the domain [dom]. *)
Definition round_trip_law {A B : Type} (f : A -> B) (g : B -> result A)
    (dom : A -> Prop) : Prop :=
  forall x, dom x -> g (f x) = Ok x.

End Py.

Notation "x <- c1 ;; c2" := (Py.bind c1 (fun x => c2))
  (at level 100, c1 at next level, right associativity).

(** ** firestore/cloud-async-client/snippets.py: class City *)

Module Firestore.
Import Py.

Record City : Type := mkCity {
  name : value;
  state : value;
  country : value;
  capital : value;
  population : value;
  regions : value
}.

(** [City.__init__(self, name, state, country, capital=False, population=0,
    regions=[])]; an omitted keyword argument is [None] here.  The default
    list is one object shared by all calls; no method of the class writes to
    it, so its content is the empty list it was created with. *)
Definition City_init (name state country : value)
    (capital population regions : option value) : City :=
  {| name := name;
     state := state;
     country := country;
     capital := default (VBool false) capital;
     population := default (VInt 0) population;
     regions := default (VList []) regions |}.

(** [City.from_dict(source)] *)
Definition from_dict (source : gmap string value) : result City :=
  n <- getitem source "name" ;;
  s <- getitem source "state" ;;
  c <- getitem source "country" ;;
  let city := City_init n s c None None None in
  let city :=
    match source !! "capital" with
    | Some v => {| name := name city; state := state city; country := country city;
                   capital := v; population := population city; regions := regions city |}
    | None => city
    end in
  let city :=
    match source !! "population" with
    | Some v => {| name := name city; state := state city; country := country city;
                   capital := capital city; population := v; regions := regions city |}
    | None => city
    end in
  let city :=
    match source !! "regions" with
    | Some v => {| name := name city; state := state city; country := country city;
                   capital := capital city; population := population city; regions := v |}
    | None => city
    end in
  Ok city.

(** [City.to_dict(self)] *)
Definition to_dict (self : City) : gmap string value :=
  let dest : gmap string value :=
    <["country" := country self]> (<["state" := state self]> (<["name" := name self]> ∅)) in
  let dest := if truthy (capital self) then <["capital" := capital self]> dest else dest in
  let dest := if truthy (population self) then <["population" := population self]> dest else dest in
  let dest := if truthy (regions self) then <["regions" := regions self]> dest else dest in
  dest.

(** The cities the round trip is claimed for. *)
Definition conforms (c : City) : Prop :=
  (exists b, capital c = VBool b) /\
  (exists n, population c = VInt n /\ 0 <= n) /\
  (exists l, regions c = VList l).

(** Two cities of the sample: one built with the defaults, one without. *)
Definition la : City :=
  City_init (VStr "Los Angeles") (VStr "CA") (VStr "USA") None None None.

Definition tokyo : City :=
  City_init (VStr "Tokyo") VNone (VStr "Japan")
    (Some (VBool true)) (Some (VInt 9000000))
    (Some (VList [VStr "kanto"; VStr "honshu"])).

End Firestore.

(** ** people-and-planet-ai/timeseries-classification/trainer.py *)

Module Trainer.
Import Py.

(** *** The TensorFlow data the module handles *)

Inductive DType : Type := float32 | float64 | int32 | int64 | tf_string | tf_bool.

Definition DType_eqb (a b : DType) : bool :=
  match a, b with
  | float32, float32 | float64, float64 | int32, int32
  | int64, int64 | tf_string, tf_string | tf_bool, tf_bool => true
  | _, _ => false
  end.

(** [DType.is_compatible_with]: the same (non-reference) type. *)
Definition dtype_is_compatible_with (self other : DType) : bool := DType_eqb self other.

(** A [TensorShape]: [None] is an unknown rank, a [None] dimension an
    unknown size. *)
Definition TensorShape : Type := option (list (option nat)).

Definition dim_is_compatible_with (x y : option nat) : bool :=
  match x, y with
  | Some a, Some b => Nat.eqb a b
  | _, _ => true
  end.

Fixpoint dims_compatible (xs ys : list (option nat)) : bool :=
  match xs, ys with
  | [], [] => true
  | x :: xs', y :: ys' => dim_is_compatible_with x y && dims_compatible xs' ys'
  | _, _ => false
  end.

(** [TensorShape.is_compatible_with] *)
Definition shape_is_compatible_with (self other : TensorShape) : bool :=
  match self, other with
  | Some xs, Some ys => dims_compatible xs ys
  | _, _ => true
  end.

Record TensorSpec : Type := mkSpec { spec_shape : TensorShape; spec_dtype : DType }.

(** A tensor: element type, static shape, and its elements as raw bit
    patterns in row-major order (no arithmetic is done on them here). *)
Record Tensor : Type := mkTensor {
  dtype : DType;
  shape : TensorShape;
  elems : list Z
}.

Definition fully_defined (s : TensorShape) : Prop :=
  exists ds : list nat, s = Some (map Some ds).

(** Python's [INPUTS_SPEC] and [OUTPUTS_SPEC]; the dictionaries keep their
    insertion order. *)
Definition column_spec : TensorSpec := mkSpec (Some [None; Some 1%nat]) float32.

Definition INPUTS_SPEC : list (string * TensorSpec) :=
  [("distance_from_port", column_spec);
   ("speed", column_spec);
   ("course", column_spec);
   ("lat", column_spec);
   ("lon", column_spec)].

Definition OUTPUTS_SPEC : list (string * TensorSpec) :=
  [("is_fishing", column_spec)].

(** [field in spec_dict] *)
Definition in_spec (spec_dict : list (string * TensorSpec)) (field : string) : bool :=
  match assoc field spec_dict with Some _ => true | None => false end.

(** *** validated *)

(** The loop of [validated]: the fields of [spec_dict] in iteration order,
    three checks each, the first failure raises. *)
Fixpoint validated_loop (tensor_dict : gmap string Tensor)
    (items : list (string * TensorSpec)) : result unit :=
  match items with
  | [] => Ok tt
  | (field, spec) :: rest =>
      match tensor_dict !! field with
      | None => Raise (KeyError field)
      | Some t =>
          if negb (dtype_is_compatible_with (spec_dtype spec) (dtype t))
          then Raise (TypeError field)
          else if negb (shape_is_compatible_with (spec_shape spec) (shape t))
          then Raise (ValueError field)
          else validated_loop tensor_dict rest
      end
  end.

Definition validated (tensor_dict : gmap string Tensor)
    (spec_dict : list (string * TensorSpec)) : result (gmap string Tensor) :=
  _ <- validated_loop tensor_dict spec_dict ;;
  Ok tensor_dict.

(** The three ways a field of the spec can fail, and passing. *)
Definition absent (td : gmap string Tensor) (item : string * TensorSpec) : Prop :=
  td !! item.1 = None.

Definition bad_dtype (td : gmap string Tensor) (item : string * TensorSpec) : Prop :=
  exists t, td !! item.1 = Some t /\
    dtype_is_compatible_with (spec_dtype item.2) (dtype t) = false.

Definition bad_shape (td : gmap string Tensor) (item : string * TensorSpec) : Prop :=
  exists t, td !! item.1 = Some t /\
    shape_is_compatible_with (spec_shape item.2) (shape t) = false.

Definition passes (td : gmap string Tensor) (item : string * TensorSpec) : Prop :=
  exists t, td !! item.1 = Some t /\
    dtype_is_compatible_with (spec_dtype item.2) (dtype t) = true /\
    shape_is_compatible_with (spec_shape item.2) (shape t) = true.

(** [item] is the first field of [spec_dict] that does not pass. *)
Definition first_failure (td : gmap string Tensor)
    (spec_dict : list (string * TensorSpec)) (item : string * TensorSpec) : Prop :=
  exists pre post, spec_dict = pre ++ item :: post /\ Forall (passes td) pre.

(** How [validated] raises at a field: the error of the first check, of the
    three, that the field fails. *)
Definition raises_at (td : gmap string Tensor) (item : string * TensorSpec)
    (e : exn) : Prop :=
  (e = KeyError item.1 /\ absent td item) \/
  (e = TypeError item.1 /\ bad_dtype td item) \/
  (e = ValueError item.1 /\ bad_shape td item /\ ~ bad_dtype td item).

(** The claim as worded for [KeyError]: raised exactly when some field of
    the spec is absent. *)
Definition KeyError_iff_some_absent : Prop :=
  forall td spec_dict,
    (exists f, validated td spec_dict = Raise (KeyError f)) <->
    Exists (absent td) spec_dict.

(** An [int32] column where a [float32] one is expected. *)
Definition int_column : Tensor := mkTensor int32 (Some [Some 3%nat; Some 1%nat]) [1; 2; 3].

(** *** serialize and deserialize *)

(** The TensorFlow calls the two functions make.  Serialized data is opaque
    to the module, so [bytes] is a type of the interface. *)
Record TensorFlow : Type := mkTF {
  pyobj : Type;
  bytes : Type;
  (** [tf.convert_to_tensor(value, dtype)] *)
  convert_to_tensor : pyobj -> DType -> result Tensor;
  (** [tf.io.serialize_tensor(t).numpy()] *)
  serialize_tensor : Tensor -> bytes;
  (** [tf.io.parse_tensor(bytes_value, dtype)] *)
  parse_tensor : bytes -> DType -> result Tensor;
  (** [tf.train.Example(features=Features(feature=...)).SerializeToString()],
      every feature a [bytes_list] *)
  Example_SerializeToString : gmap string (list bytes) -> bytes;
  (** [tf.io.parse_example(serialized, features)] where every field of
      [features] is [FixedLenFeature(shape=(), dtype=tf.string)]; the items
      of the resulting dict in its order *)
  parse_example : bytes -> list string -> result (list (string * bytes))
}.
Arguments convert_to_tensor {_} _ _.
Arguments serialize_tensor {_} _.
Arguments parse_tensor {_} _ _.
Arguments Example_SerializeToString {_} _.
Arguments parse_example {_} _ _.

(** What the round trip needs of TensorFlow: converted tensors have the
    requested dtype and a static shape, [parse_tensor] inverts
    [serialize_tensor], and [parse_example] finds the single value of each
    requested feature. *)
Record TensorFlow_laws (tf : TensorFlow) : Prop := mkTFLaws {
  convert_to_tensor_dtype : forall v d t,
    convert_to_tensor (t := tf) v d = Ok t -> dtype t = d /\ fully_defined (shape t);
  parse_serialize_tensor : forall t,
    fully_defined (shape t) ->
    parse_tensor (t := tf) (serialize_tensor t) (dtype t) = Ok t;
  parse_example_serialized : forall feats names,
    (forall n, n ∈ names -> exists b, feats !! n = Some [b]) ->
    exists items,
      parse_example (t := tf) (Example_SerializeToString feats) names = Ok items /\
      forall n b, (n, b) ∈ items <-> n ∈ names /\ feats !! n = Some [b]
}.

Section Serialization.
Context (tf : TensorFlow).

(** [{**INPUTS_SPEC, **OUTPUTS_SPEC}] (the keys are distinct) *)
Definition spec_dict : list (string * TensorSpec) := INPUTS_SPEC ++ OUTPUTS_SPEC.

(** [spec_dict[field]] *)
Definition spec_getitem (sd : list (string * TensorSpec)) (field : string) : result TensorSpec :=
  match assoc field sd with
  | Some spec => Ok spec
  | None => Raise (KeyError field)
  end.

(** The first dict comprehension of [serialize], over [value_dict.items()]. *)
Fixpoint convert_values (items : list (string * pyobj tf))
    (acc : gmap string Tensor) : result (gmap string Tensor) :=
  match items with
  | [] => Ok acc
  | (field, value) :: rest =>
      spec <- spec_getitem spec_dict field ;;
      t <- convert_to_tensor value (spec_dtype spec) ;;
      convert_values rest (<[field := t]> acc)
  end.

Definition serialize (value_dict : list (string * pyobj tf)) : result (bytes tf) :=
  tensor_dict <- convert_values value_dict ∅ ;;
  validated_tensor_dict <- validated tensor_dict spec_dict ;;
  Ok (Example_SerializeToString
        ((fun value => [serialize_tensor value]) <$> validated_tensor_dict)).

(** The inner [parse_tensor] of [deserialize]; [set_shape] on an eager
    tensor raises [ValueError] when the shapes are incompatible and leaves
    the tensor as it is otherwise. *)
Definition parse_tensor_with_spec (bytes_value : bytes tf) (spec : TensorSpec) : result Tensor :=
  tensor <- parse_tensor bytes_value (spec_dtype spec) ;;
  if shape_is_compatible_with (shape tensor) (spec_shape spec)
  then Ok tensor
  else Raise (ValueError "set_shape").

(** The dict comprehension of [parse_features], over [example.items()]. *)
Fixpoint parse_fields (sd : list (string * TensorSpec))
    (items : list (string * bytes tf)) (acc : gmap string Tensor) : result (gmap string Tensor) :=
  match items with
  | [] => Ok acc
  | (field, bytes_value) :: rest =>
      match assoc field sd with
      | Some spec =>
          t <- parse_tensor_with_spec bytes_value spec ;;
          parse_fields sd rest (<[field := t]> acc)
      | None => parse_fields sd rest acc
      end
  end.

Definition parse_features (example : list (string * bytes tf))
    (sd : list (string * TensorSpec)) : result (gmap string Tensor) :=
  tensor_dict <- parse_fields sd example ∅ ;;
  validated tensor_dict sd.

Definition deserialize (serialized_example : bytes tf) :
    result (gmap string Tensor * gmap string Tensor) :=
  example <- parse_example serialized_example (INPUTS_SPEC.*1 ++ OUTPUTS_SPEC.*1) ;;
  inputs <- parse_features example INPUTS_SPEC ;;
  outputs <- parse_features example OUTPUTS_SPEC ;;
  Ok (inputs, outputs).

(** A value dictionary conforms to the specs when its values convert to the
    tensors [td] and every field of the specs passes on [td]. *)
Definition conforming (value_dict : list (string * pyobj tf))
    (td : gmap string Tensor) : Prop :=
  convert_values value_dict ∅ = Ok td /\ Forall (passes td) spec_dict.

(** The part of a tensor dictionary that a spec names. *)
Definition restrict (sd : list (string * TensorSpec)) (td : gmap string Tensor) :
    gmap string Tensor :=
  filter (fun kv => in_spec sd kv.1 = true) td.

End Serialization.

(** An instance of the interface, to run the functions on: values are
    columns of raw elements, serialized data is kept structured. *)
Inductive wire : Type :=
| WTensor (t : Tensor)
| WExample (features : list (string * list wire)).

Definition wire_convert (v : list Z) (d : DType) : result Tensor :=
  Ok (mkTensor d (Some (map Some [length v; 1%nat])) v).

Definition wire_parse_tensor (b : wire) (d : DType) : result Tensor :=
  match b with
  | WTensor t => if DType_eqb (dtype t) d then Ok t else Raise (Vendor "InvalidArgumentError")
  | WExample _ => Raise (Vendor "InvalidArgumentError")
  end.

Fixpoint wire_collect (features : list (string * list wire)) (names : list string) :
    result (list (string * wire)) :=
  match names with
  | [] => Ok []
  | n :: names' =>
      match assoc n features with
      | Some [b] => items <- wire_collect features names' ;; Ok ((n, b) :: items)
      | _ => Raise (Vendor "InvalidArgumentError")
      end
  end.

Definition wire_parse_example (b : wire) (names : list string) :
    result (list (string * wire)) :=
  match b with
  | WExample features => wire_collect features names
  | WTensor _ => Raise (Vendor "InvalidArgumentError")
  end.

Definition wire_tf : TensorFlow :=
  {| pyobj := list Z;
     bytes := wire;
     convert_to_tensor := wire_convert;
     serialize_tensor := WTensor;
     parse_tensor := wire_parse_tensor;
     Example_SerializeToString := fun feats => WExample (map_to_list feats);
     parse_example := wire_parse_example |}.

Definition sample_values : list (string * list Z) :=
  [("distance_from_port", [10; 20]); ("speed", [3; 4]); ("course", [0; 90]);
   ("lat", [41; 42]); ("lon", [2; 3]); ("is_fishing", [0; 1])].

Definition sample_column (v : list Z) : Tensor :=
  mkTensor float32 (Some [Some 2%nat; Some 1%nat]) v.

Definition sample_tensors : gmap string Tensor :=
  list_to_map (map (fun kv => (kv.1, sample_column kv.2)) sample_values).

(** *** The script's entry point *)

(** One [parser.add_argument(option_string, required=..., default=...)]. *)
Record Argument : Type := mkArg {
  option_string : string;
  required : bool;
  arg_default : option string
}.

(** The attribute argparse stores an option under: the option string
    without its leading dashes, inner dashes turned into underscores. *)
Definition dest (a : Argument) : string :=
  replace "-" "_" (lstrip "-" (option_string a)).

Definition starts_with_dash (s : string) : bool :=
  match s with
  | String c _ => Ascii.eqb c "-"
  | EmptyString => false
  end.

(** The namespace before any token is read: every declared attribute, at
    its default ([None] is Python's [None]). *)
Definition initial_namespace (decls : list Argument) : gmap string (option string) :=
  list_to_map (map (fun a => (dest a, arg_default a)) decls).

(** A parser in the manner of argparse, for options given as an exact
    option string followed by its value: an unknown token, a missing value
    or a missing required option ends the program with exit status 2, a
    request for help with status 0. *)
Fixpoint parse_tokens (decls : list Argument) (argv : list string)
    (ns : gmap string (option string)) (seen : list string) :
    result (gmap string (option string) * list string) :=
  match argv with
  | [] => Ok (ns, seen)
  | tok :: rest =>
      if String.eqb tok "-h" || String.eqb tok "--help" then Raise (SystemExit 0)
      else match find (fun a => String.eqb (option_string a) tok) decls with
           | None => Raise (SystemExit 2)
           | Some a =>
               match rest with
               | [] => Raise (SystemExit 2)
               | v :: rest' =>
                   if starts_with_dash v then Raise (SystemExit 2)
                   else parse_tokens decls rest' (<[dest a := Some v]> ns) (dest a :: seen)
               end
           end
  end.

Definition parse_exact (decls : list Argument) (argv : list string) :
    result (gmap string (option string)) :=
  parsed <- parse_tokens decls argv (initial_namespace decls) [] ;;
  let '(ns, seen) := parsed in
  if forallb (fun a => negb (required a) || existsb (String.eqb (dest a)) seen) decls
  then Ok ns
  else Raise (SystemExit 2).

(** [args.attr] on the namespace *)
Definition getattr (args : gmap string (option string)) (attr : string) :
    result (option string) :=
  match args !! attr with
  | Some v => Ok v
  | None => Raise (AttributeError attr)
  end.

(** A call [run(train_files=..., eval_files=..., model_dir=...,
    tensorboard_dir=...)]. *)
Record run_call : Type := mkRun {
  train_files : option string;
  eval_files : option string;
  model_dir : option string;
  tensorboard_dir : option string
}.

(** The parser the script builds; [os.environ.get("AIP_MODEL_DIR", "model")]
    is the default of [--model-dir]. *)
Definition parser (environ : gmap string string) : list Argument :=
  [mkArg "--trian-files" true None;
   mkArg "--eval-files" true None;
   mkArg "--model-dir" false (Some (default "model" (environ !! "AIP_MODEL_DIR")));
   mkArg "--tensorboard-dir" false (Some "tensorboard")].

Section EntryPoint.
(** [parser.parse_args()]: argparse on the declared arguments and the
    command line. *)
Variable parse_args :
  list Argument -> list string -> result (gmap string (option string)).

(** The [if __name__ == "__main__":] block: [Ok call] when it gets as far
    as calling [run]. *)
Definition main (environ : gmap string string) (argv : list string) : result run_call :=
  args <- parse_args (parser environ) argv ;;
  a1 <- getattr args "train_files" ;;
  a2 <- getattr args "eval_files" ;;
  a3 <- getattr args "output_dir" ;;
  a4 <- getattr args "tensorboard_dir" ;;
  Ok (mkRun a1 a2 a3 a4).

End EntryPoint.

(** What the entry point's behaviour rests on: a namespace has no attribute
    but the declared ones. *)
Definition stores_declared_only
    (parse_args : list Argument -> list string -> result (gmap string (option string))) :
    Prop :=
  forall decls argv ns attr,
    parse_args decls argv = Ok ns -> attr ∉ map dest decls -> ns !! attr = None.

(** The command line with the flags the parser declares. *)
Definition declared_flags : list string :=
  ["--trian-files"; "train*"; "--eval-files"; "eval*"].

End Trainer.

(** ** run/events-pubsub/main.py: the Cloud Run Pub/Sub handler *)

Module PubSub.
Import Py.

(** What the handler reads of a CloudEvent: [event['id']] and [event.data]. *)
Record CloudEvent : Type := mkEvent { ce_id : string; ce_data : value }.

(** The three [except] clauses of [index], by the class they name: the body
    of the response each one returns. *)
Definition except_clause (e : exn) : option string :=
  match e with
  | Vendor cls =>
      if String.eqb cls "MissingRequiredFields"
      then Some "Failed to find all required cloudevent fields. "
      else if String.eqb cls "InvalidStructuredJSON"
      then Some "Could not deserialize the payload as JSON. "
      else if String.eqb cls "InvalidRequiredFields"
      then Some "Request contained invalid required cloudevent fields. "
      else None
  | _ => None
  end.

Section Handler.
(** The incoming Flask request, cloudevents' [from_http] on its headers and
    body, and [base64.b64decode(data).decode('utf-8').strip()]. *)
Context {request : Type}.
Variable from_http : request -> result CloudEvent.
Variable decode_name : value -> result string.

(** [index()]: the response body and the HTTP status, or the exception that
    leaves the handler. *)
Definition index (req : request) : result (string * Z) :=
  match from_http req with
  | Raise e =>
      match except_clause e with
      | Some body => Ok (body, 400)
      | None => Raise e
      end
  | Ok event =>
      let envelope := ce_data event in
      if negb (truthy envelope)
      then Ok ("Bad Request: no Pub/Sub message received", 400)
      else
        match envelope with
        | VDict d =>
            match assoc "message" d with
            | None => Ok ("Bad Request: invalid Pub/Sub message format", 400)
            | Some pubsub_message =>
                name <- match pubsub_message with
                        | VDict m =>
                            match assoc "data" m with
                            | Some data => decode_name data
                            | None => Ok "World"
                            end
                        | _ => Ok "World"
                        end ;;
                Ok ("Hello, " +:+ name +:+ "! ID: " +:+ ce_id event, 200)
            end
        | _ => Ok ("Bad Request: invalid Pub/Sub message format", 400)
        end
  end.

End Handler.

(** The spec's sentence on this handler: an exception raised while the
    request is handled leaves the handler, it is never turned into a
    response. *)
Definition errors_propagate : Prop :=
  forall (from_http : unit -> result CloudEvent) (decode_name : value -> result string) e,
    from_http tt = Raise e -> index from_http decode_name tt = Raise e.

(** The event data the handler answers with 400. *)
Definition bad_envelope (envelope : value) : Prop :=
  truthy envelope = false \/ is_dict envelope = false \/
  exists d, envelope = VDict d /\ assoc "message" d = None.

(** A request without the required CloudEvent headers, and a decoder for the
    sample runs. *)
Definition missing_fields (_ : unit) : result CloudEvent :=
  Raise (Vendor "MissingRequiredFields").

Definition no_decode (_ : value) : result string := Raise (Vendor "binascii.Error").

End PubSub.

(** ** iam/cloud-client/snippets/disable_service_account.py *)

Module IAM.
Import Py.

Record ServiceAccount : Type := mkAccount { sa_name : string; disabled : bool }.

(** The requests sent to the IAM service, and what the snippet does that
    can be observed. *)
Inductive rpc : Type :=
| DisableServiceAccountRequest (name : string)
| GetServiceAccountRequest (name : string).

Inductive event : Type :=
| Rpc (r : rpc)
| Stdout (line : string).

(** The service as the client sees it: the answer to each request. *)
Record IAMClient : Type := mkClient {
  disable_service_account_rpc : string -> result unit;
  get_service_account_rpc : string -> result ServiceAccount
}.

(** A run: the events in order, and how it ended. *)
Definition run (A : Type) : Type := list event * result A.

#[global] Instance run_ret : MRet run := fun A a => ([], Ok a).

#[global] Instance run_bind : MBind run := fun A B k m =>
  match m with
  | (tr, Ok a) => let '(tr', r) := k a in (tr ++ tr', r)
  | (tr, Raise e) => (tr, Raise e)
  end.

Definition call {A : Type} (r : rpc) (answer : result A) : run A := ([Rpc r], answer).

Definition print (line : string) : run unit := ([Stdout line], Ok tt).

Definition disable_service_account (iam_admin_client : IAMClient)
    (project_id account : string) : run unit :=
  let name := "projects/" +:+ project_id +:+ "/serviceAccounts/" +:+ account in
  _ ← call (DisableServiceAccountRequest name)
         (disable_service_account_rpc iam_admin_client name);
  service_account ← call (GetServiceAccountRequest name)
         (get_service_account_rpc iam_admin_client name);
  if disabled service_account
  then print ("Disabled service account: " +:+ account)
  else mret tt.

(** The requests of a run, in order. *)
Definition rpcs {A : Type} (r : run A) : list rpc :=
  omap (fun ev => match ev with Rpc r => Some r | Stdout _ => None end) r.1.

Definition printed {A : Type} (r : run A) : list string :=
  omap (fun ev => match ev with Stdout l => Some l | Rpc _ => None end) r.1.

(** The spec's sentence on this snippet: one RPC, whatever the arguments. *)
Definition exactly_one_rpc : Prop :=
  forall client project_id account,
    length (rpcs (disable_service_account client project_id account)) = 1%nat.

(** A service on which both requests succeed. *)
Definition obliging : IAMClient :=
  {| disable_service_account_rpc := fun _ => Ok tt;
     get_service_account_rpc := fun name => Ok (mkAccount name true) |}.

End IAM.

(** ** appengine/python3-wormhole-samples/blobstore/wsgi/main.py *)

Module Wsgi.
Import Py.

(** *** The regular expressions of the route table

    [re.search] for the constructs the route table uses: literal
    characters, [.], [^], [$], [?] and [+] on a single character, capturing
    groups and concatenation.  The matcher backtracks like Python's: a
    greedy repetition first takes as much as it can. *)

Inductive atom : Type :=
| Chr (c : ascii)
| Dot.

Inductive regex : Type :=
| Atom (a : atom)
| Bol
| Eol
| OptA (a : atom)
| PlusA (a : atom)
| Group (r : regex)
| Seq (r1 r2 : regex).

Definition newline : ascii := "010"%char.

(** [.] matches any character but a newline. *)
Definition atom_matches (a : atom) (c : ascii) : bool :=
  match a with
  | Chr c' => Ascii.eqb c' c
  | Dot => negb (Ascii.eqb c newline)
  end.

(** [$] matches at the end of the string and just before a newline that
    ends the string. *)
Definition at_end (s : string) : bool :=
  match s with
  | EmptyString => true
  | String c EmptyString => Ascii.eqb c newline
  | String _ (String _ _) => false
  end.

(** One or more [a], greedy: try to take one more before going on. *)
Fixpoint plus_loop (a : atom) (pos : nat) (s : string)
    (k : nat -> string -> option (list string)) : option (list string) :=
  match s with
  | String c s' =>
      if atom_matches a c then
        match plus_loop a (S pos) s' k with
        | Some m => Some m
        | None => k (S pos) s'
        end
      else None
  | EmptyString => None
  end.

(** Match [r] at offset [pos] of [subject], where [s] is what remains of
    the subject; [groups] are the groups opened so far, in the order of
    their opening parentheses (a group takes its place when it opens and
    its text when it closes), [k] is the rest of the match. *)
Fixpoint rmatch (subject : string) (r : regex) (pos : nat) (s : string)
    (groups : list string)
    (k : nat -> string -> list string -> option (list string)) : option (list string) :=
  match r with
  | Atom a =>
      match s with
      | String c s' => if atom_matches a c then k (S pos) s' groups else None
      | EmptyString => None
      end
  | Bol => if Nat.eqb pos 0 then k pos s groups else None
  | Eol => if at_end s then k pos s groups else None
  | OptA a =>
      match
        match s with
        | String c s' => if atom_matches a c then k (S pos) s' groups else None
        | EmptyString => None
        end
      with
      | Some m => Some m
      | None => k pos s groups
      end
  | PlusA a => plus_loop a pos s (fun pos' s' => k pos' s' groups)
  | Group r' =>
      let i := length groups in
      rmatch subject r' pos s (groups ++ [""])
        (fun pos' s' groups' =>
           k pos' s' (<[i := substring pos (pos' - pos) subject]> groups'))
  | Seq r1 r2 =>
      rmatch subject r1 pos s groups
        (fun pos' s' groups' => rmatch subject r2 pos' s' groups' k)
  end.

(** The leftmost match: try every start offset in turn. *)
Fixpoint search_from (subject : string) (r : regex) (pos : nat) (s : string) :
    option (list string) :=
  match rmatch subject r pos s [] (fun _ _ groups => Some groups) with
  | Some groups => Some groups
  | None =>
      match s with
      | String _ s' => search_from subject r (S pos) s'
      | EmptyString => None
      end
  end.

(** [re.search(regex, path)]: [None], or [match.groups()]. *)
Definition re_search (r : regex) (path : string) : option (list string) :=
  search_from path r 0 path.

(** A literal string followed by [rest]. *)
Fixpoint lit (s : string) (rest : regex) : regex :=
  match s with
  | EmptyString => rest
  | String c s' => Seq (Atom (Chr c)) (lit s' rest)
  end.

(** *** The route table and the application *)

Inductive handler : Type := UploadFormHandler | UploadPhotoHandler | ViewPhotoHandler.

(** [urls] *)
Definition urls : list (regex * handler) :=
  [(Seq Bol Eol, UploadFormHandler);
   (lit "upload_photo" (Seq (OptA (Chr "/")) Eol), UploadPhotoHandler);
   (lit "view_photo/" (Seq (Group (PlusA Dot)) Eol), ViewPhotoHandler)].

(** What [__call__] ends with: the call [handler()(environ, start_response)]
    on the updated environ, or a response of its own. *)
Inductive outcome : Type :=
| Dispatch (h : handler) (environ : gmap string value)
| Response (status : string) (headers : list (string * string)) (body : list string).

(** [Application.not_found] *)
Definition not_found : outcome :=
  Response "404 Not Found" [("Content-Type", "text/plain")] ["404 Not Found"].

(** The [for] loop of [Application.__call__]. *)
Fixpoint route (routes : list (regex * handler)) (path : string)
    (environ : gmap string value) : outcome :=
  match routes with
  | [] => not_found
  | (regex, handler) :: rest =>
      match re_search regex path with
      | Some groups =>
          Dispatch handler (<["app.url_args" := VList (VStr <$> groups)]> environ)
      | None => route rest path environ
      end
  end.

(** [environ.get('PATH_INFO', '').lstrip('/')]; the WSGI server sets
    [PATH_INFO] to a string.  On bytes, [lstrip('/')] raises [TypeError];
    the other values have no [lstrip]. *)
Definition stripped_path (environ : gmap string value) : result string :=
  match default (VStr "") (environ !! "PATH_INFO") with
  | VStr s => Ok (lstrip "/" s)
  | VBytes _ => Raise (TypeError "lstrip")
  | VNone | VBool _ | VInt _ | VList _ | VDict _ => Raise (AttributeError "lstrip")
  end.

(** [Application(routes).__call__(environ, start_response)] *)
Definition Application_call (routes : list (regex * handler))
    (environ : gmap string value) : result outcome :=
  path <- stripped_path environ ;;
  Ok (route routes path environ).

(** No capturing group occurs in [r]. *)
Fixpoint groupless (r : regex) : bool :=
  match r with
  | Group _ => false
  | Seq r1 r2 => groupless r1 && groupless r2
  | _ => true
  end.



End Wsgi.

(** ** auth/api-client/restrict_api_key_server.py *)

Module ApiKeys.
Import Py.

(** *** The messages of [google.cloud.api_keys_v2] the snippet touches

    A message field that was never set is [None]; scalar and repeated
    fields have the proto3 defaults. *)

Record ServerKeyRestrictions : Type := mkServer { allowed_ips : list string }.

(** The [client_restrictions] oneof of [Restrictions]. *)
Inductive client_restrictions : Type :=
| no_client_restrictions
| browser_key_restrictions (allowed_referrers : list string)
| server_key_restrictions (r : ServerKeyRestrictions)
| android_key_restrictions (allowed_applications : list (string * string))
| ios_key_restrictions (allowed_bundle_ids : list string).

Record ApiTarget : Type := mkTarget { service : string; methods : list string }.

Record Restrictions : Type := mkRestrictions {
  client : client_restrictions;
  api_targets : list ApiTarget
}.

Record Key : Type := mkKey {
  name : string;
  uid : string;
  display_name : string;
  key_string : string;
  create_time : option Z;
  update_time : option Z;
  delete_time : option Z;
  annotations : list (string * string);
  restrictions : option Restrictions;
  etag : string
}.

Record FieldMask : Type := mkMask { paths : list string }.

Record UpdateKeyRequest : Type := mkUpdate {
  key : option Key;
  update_mask : option FieldMask
}.

(** The messages as their constructors leave them. *)
Definition ServerKeyRestrictions_new : ServerKeyRestrictions := mkServer [].
Definition Restrictions_new : Restrictions := mkRestrictions no_client_restrictions [].
Definition Key_new : Key := mkKey "" "" "" "" None None None [] None "".
Definition UpdateKeyRequest_new : UpdateKeyRequest := mkUpdate None None.

(** Attribute assignments. *)
Definition set_allowed_ips (v : list string) (m : ServerKeyRestrictions) : ServerKeyRestrictions :=
  {| allowed_ips := v |}.

Definition set_server_key_restrictions (v : ServerKeyRestrictions) (m : Restrictions) :
    Restrictions :=
  {| client := server_key_restrictions v; api_targets := api_targets m |}.

Definition set_name (v : string) (m : Key) : Key :=
  {| name := v; uid := uid m; display_name := display_name m;
     key_string := key_string m; create_time := create_time m;
     update_time := update_time m; delete_time := delete_time m;
     annotations := annotations m; restrictions := restrictions m; etag := etag m |}.

Definition set_restrictions (v : Restrictions) (m : Key) : Key :=
  {| name := name m; uid := uid m; display_name := display_name m;
     key_string := key_string m; create_time := create_time m;
     update_time := update_time m; delete_time := delete_time m;
     annotations := annotations m; restrictions := Some v; etag := etag m |}.

Definition set_key (v : Key) (m : UpdateKeyRequest) : UpdateKeyRequest :=
  {| key := Some v; update_mask := update_mask m |}.

(** Splitting at commas, as [str.split(',')] does. *)
Fixpoint split_commas (s : string) (current : string) : list string :=
  match s with
  | EmptyString => [current]
  | String c s' =>
      if Ascii.eqb c ","
      then current :: split_commas s' ""
      else split_commas s' (current +:+ String c "")
  end.

(** Assigning a string to a [FieldMask] field reads it as the
    comma-separated list of its paths. *)
Definition set_update_mask (v : string) (m : UpdateKeyRequest) : UpdateKeyRequest :=
  {| key := key m;
     update_mask := Some (mkMask (if String.eqb v "" then [] else split_commas v "")) |}.

(** *** The snippet *)

Inductive event : Type :=
| UpdateKey (request : UpdateKeyRequest)
| Stdout (line : string).

(** The request the snippet builds. *)
Definition build_request (project_id key_id : string) : UpdateKeyRequest :=
  let server := set_allowed_ips ["198.51.100.0/24"; "2000:db8::/64"] ServerKeyRestrictions_new in
  let restr := set_server_key_restrictions server Restrictions_new in
  let k := Key_new in
  let k := set_name ("projects/" +:+ project_id +:+ "/locations/global/keys/" +:+ key_id) k in
  let k := set_restrictions restr k in
  let request := UpdateKeyRequest_new in
  let request := set_key k request in
  set_update_mask "restrictions" request.

(** [restrict_api_key_server(project_id, key_id)]; [update_key] is
    [client.update_key(request=request).result()]. *)
Definition restrict_api_key_server (update_key : UpdateKeyRequest -> result Key)
    (project_id key_id : string) : list event * result Key :=
  let request := build_request project_id key_id in
  match update_key request with
  | Ok response =>
      ([UpdateKey request; Stdout ("Successfully updated the API key: " +:+ name response)],
       Ok response)
  | Raise e => ([UpdateKey request], Raise e)
  end.

(** The fields of a request outside the three the snippet sets are at
    their defaults. *)
Definition others_at_default (request : UpdateKeyRequest) : Prop :=
  exists k r s,
    key request = Some k /\ restrictions k = Some r /\ client r = server_key_restrictions s /\
    uid k = uid Key_new /\ display_name k = display_name Key_new /\
    key_string k = key_string Key_new /\ create_time k = create_time Key_new /\
    update_time k = update_time Key_new /\ delete_time k = delete_time Key_new /\
    annotations k = annotations Key_new /\ etag k = etag Key_new /\
    api_targets r = api_targets Restrictions_new.

(** The three fields the snippet sets. *)
Definition fields_set (project_id key_id : string) (request : UpdateKeyRequest) : Prop :=
  exists k r,
    key request = Some k /\ restrictions k = Some r /\
    name k = "projects/" +:+ project_id +:+ "/locations/global/keys/" +:+ key_id /\
    client r = server_key_restrictions (mkServer ["198.51.100.0/24"; "2000:db8::/64"]) /\
    update_mask request = Some (mkMask ["restrictions"]).

End ApiKeys.

(** ** firestore/cloud-async-client/snippets.py: the dictionaries of City *)

Module CityDicts.
Import Py Firestore.

(** What an optional attribute is after [to_dict] and [from_dict]: itself
    when truthy, the constructor default otherwise. *)
Definition restored (dflt v : value) : value := if truthy v then v else dflt.

Definition normalized (c : City) : City :=
  {| name := name c;
     state := state c;
     country := country c;
     capital := restored (VBool false) (capital c);
     population := restored (VInt 0) (population c);
     regions := restored (VList []) (regions c) |}.

Definition mandatory_keys : list string := ["name"; "state"; "country"].
Definition optional_keys : list string := ["capital"; "population"; "regions"].

(** The dictionaries that [to_dict] produces: the three mandatory keys,
    optional keys with truthy values only, and no other key. *)
Definition canonical (d : gmap string value) : Prop :=
  (forall k, k ∈ mandatory_keys -> is_Some (d !! k)) /\
  (forall k v, k ∈ optional_keys -> d !! k = Some v -> truthy v = true) /\
  (forall k, is_Some (d !! k) -> k ∈ mandatory_keys ++ optional_keys).

(** The document of [add_from_dict]. *)
Definition la_data : gmap string value :=
  <["country" := VStr "USA"]> (<["state" := VStr "CA"]> (<["name" := VStr "Los Angeles"]> ∅)).

End CityDicts.

(** ** trainer.py: what the tensor dictionaries look like *)

Module TrainerShapes.
Import Py Trainer.

(** A tensor as every spec of the module wants it: [float32], of a shape
    compatible with [(None, 1)]. *)
Definition is_column (t : Tensor) : Prop :=
  dtype t = float32 /\
  shape_is_compatible_with (Some [None; Some 1%nat]) (shape t) = true.

(** The fields of a tensor dictionary are those of the spec, no more and no
    fewer. *)
Definition keys_exactly (sd : list (string * TensorSpec)) (td : gmap string Tensor) : Prop :=
  forall n, is_Some (td !! n) <-> n ∈ sd.*1.

(** The sample values, as [wire_tf] serializes them. *)
Definition sample_bytes : wire :=
  WExample (map_to_list ((fun v => [WTensor v]) <$> sample_tensors)).

End TrainerShapes.

(** ** run/events-pubsub/main.py: the greeting *)

Module PubSubGreeting.
Import Py PubSub.

(** [pubsub_message['data']] when [pubsub_message] is a dict that has the
    key, as the handler tests it. *)
Definition message_data (pubsub_message : value) : option value :=
  match pubsub_message with
  | VDict m => assoc "data" m
  | _ => None
  end.

(** The body of the 200 response. *)
Definition greeting (name : string) (event : CloudEvent) : string :=
  "Hello, " +:+ name +:+ "! ID: " +:+ ce_id event.

(** Sample requests: a push without data, one with data, and one whose
    headers cloudevents rejects with an exception the handler does not
    catch. *)
Definition push_event (message : value) (_ : unit) : result CloudEvent :=
  Ok (mkEvent "42" (VDict [("message", message); ("subscription", VStr "s")])).

Definition bad_headers (_ : unit) : result CloudEvent :=
  Raise (Vendor "InvalidHeadersFormat").

End PubSubGreeting.

(** ** blobstore/wsgi/main.py: the handlers behind the routes *)

Module Blobstore.
Import Py Wsgi.

(** *** Shapes of paths *)

Definition nl : string := String newline "".

(** What may follow [upload_photo] at the end of a path that the second
    route matches: nothing or a slash, and then possibly the newline that
    [$] tolerates. *)
Definition upload_tails : list string := [""; "/"; nl; "/" +:+ nl].

Definition upload_shaped (path : string) : Prop :=
  exists pre tail, path = pre +:+ "upload_photo" +:+ tail /\ tail ∈ upload_tails.

(** The number of capturing groups of a pattern. *)
Fixpoint count_groups (r : regex) : nat :=
  match r with
  | Group r' => S (count_groups r')
  | Seq r1 r2 => count_groups r1 + count_groups r2
  | _ => 0
  end.

Fixpoint has_newline (s : string) : bool :=
  match s with
  | EmptyString => false
  | String c s' => Ascii.eqb c newline || has_newline s'
  end.

(** *** ViewPhotoHandler and UploadPhotoHandler *)

(** What a handler method returns: body, status, headers. *)
Inductive reply : Type :=
| Reply (body : string) (status : Z) (headers : list (string * string)).

(** How [ViewPhotoHandler.get] ends. *)
Inductive get_outcome : Type :=
| GetReply (r : reply)
| GetKeyError (key : string)
| GetIndexError
| GetTypeError.

(** A [UserPhoto] entity; the blob key in its string form. *)
Record UserPhoto : Type := mkPhoto { user : option string; blob_key : string }.

(** How [UploadPhotoHandler.post] ends. *)
Inductive post_outcome : Type :=
| Posted (stored : UserPhoto) (r : reply)
| PostIndexError
| PostAttributeError
| PostRaised (e : exn).

Section Handlers.
(** The App Engine services the handlers call: [blobstore.get(key)] (is
    there such a blob), [self.send_blob(environ, key)] (the headers that
    serve it), [self.get_uploads(environ)] (the keys of the uploaded blobs),
    [users.get_current_user()] (no user, or a user and its [user_id()]),
    and [user_photo.put()]. *)
Variable blobstore_get : value -> bool.
Variable send_blob : gmap string value -> value -> list (string * string).
Variable get_uploads : gmap string value -> list string.
Variable get_current_user : option (option string).
Variable put : UserPhoto -> result unit.

(** [ViewPhotoHandler.get_photo(environ, photo_key)] *)
Definition get_photo (environ : gmap string value) (photo_key : value) : reply :=
  if negb (blobstore_get photo_key)
  then Reply "Photo key not found" 404 []
  else Reply "" 200 (send_blob environ photo_key).

(** [x[0]] on a Python value *)
Definition first_item (x : value) : get_outcome + value :=
  match x with
  | VList (v :: _) => inr v
  | VList [] => inl GetIndexError
  | VStr (String c _) => inr (VStr (String c ""))
  | VStr EmptyString => inl GetIndexError
  | VBytes (String c _) => inr (VInt (Z.of_nat (nat_of_ascii c)))
  | VBytes EmptyString => inl GetIndexError
  | VDict _ => inl (GetKeyError "0")
  | VNone | VBool _ | VInt _ => inl GetTypeError
  end.

(** [ViewPhotoHandler.get(environ)] *)
Definition get (environ : gmap string value) : get_outcome :=
  match environ !! "app.url_args" with
  | None => GetKeyError "app.url_args"
  | Some url_args =>
      match first_item url_args with
      | inr photo_key => GetReply (get_photo environ photo_key)
      | inl raised => raised
      end
  end.

(** [UploadPhotoHandler.post(environ)] *)
Definition post (environ : gmap string value) : post_outcome :=
  match get_uploads environ with
  | [] => PostIndexError
  | upload :: _ =>
      match get_current_user with
      | None => PostAttributeError
      | Some user_id =>
          let user_photo := mkPhoto user_id upload in
          match put user_photo with
          | Raise e => PostRaised e
          | Ok _ =>
              Posted user_photo (Reply "" 302 [("Location", "/view_photo/" +:+ upload)])
          end
      end
  end.

End Handlers.

Definition no_blob (_ : value) : bool := false.
Definition no_headers (_ : gmap string value) (_ : value) : list (string * string) := [].

End Blobstore.

(** ** dataflow/flex-templates/streaming_beam/streaming_beam_test.py:
       the set-up of the topic and the subscription *)

Module StreamingBeamTest.
Import Py.

Definition TOPIC : string := "messages".
Definition SUBSCRIPTION : string := "messages".

(** The requests the set-up sends to Pub/Sub. *)
Inductive call : Type :=
| DeleteTopic (topic_path : string)
| CreateTopic (topic_path : string)
| DeleteSubscription (sub_path : string)
| CreateSubscription (sub_path topic_path : string).

(** The Pub/Sub clients as the test sees them: the two path formatters, and
    the answer to each request (for a creation, the [name] of the
    response). *)
Record PubSubClients : Type := mkClients {
  topic_path : string -> string -> string;
  subscription_path : string -> string -> string;
  delete_topic : string -> result unit;
  create_topic : string -> result string;
  delete_subscription : string -> result unit;
  create_subscription_rpc : string -> string -> result string
}.

(** [isinstance(e, Exception)], what [except Exception] catches:
    everything but the exceptions that derive from [BaseException] alone
    ([SystemExit], [KeyboardInterrupt], [GeneratorExit], ...). *)
Definition is_Exception (e : exn) : bool :=
  match e with
  | SystemExit _ | NonException _ => false
  | KeyError _ | TypeError _ | ValueError _ | AttributeError _ | Vendor _ => true
  end.

(** [try: f() except Exception: pass]: the exception that still leaves. *)
Definition try_pass (r : result unit) : option exn :=
  match r with
  | Ok _ => None
  | Raise e => if is_Exception e then None else Some e
  end.

(** [create_topic_path()]: the requests sent, and the outcome. *)
Definition create_topic_path (clients : PubSubClients) (PROJECT : string) :
    list call * result string :=
  let path := topic_path clients PROJECT TOPIC in
  match try_pass (delete_topic clients path) with
  | Some e => ([DeleteTopic path], Raise e)
  | None => ([DeleteTopic path; CreateTopic path], create_topic clients path)
  end.

(** [create_subscription(topic_path)] *)
Definition create_subscription (clients : PubSubClients) (PROJECT : string)
    (topic : string) : list call * result string :=
  let sub_path := subscription_path clients PROJECT SUBSCRIPTION in
  match try_pass (delete_subscription clients sub_path) with
  | Some e => ([DeleteSubscription sub_path], Raise e)
  | None =>
      ([DeleteSubscription sub_path; CreateSubscription sub_path topic],
       create_subscription_rpc clients sub_path topic)
  end.

(** The first two steps of the test:
    [topic_path = create_topic_path()] and then
    [sub_path = create_subscription(topic_path)]. *)
Definition set_up (clients : PubSubClients) (PROJECT : string) :
    list call * result (string * string) :=
  match create_topic_path clients PROJECT with
  | (calls, Raise e) => (calls, Raise e)
  | (calls, Ok topic) =>
      match create_subscription clients PROJECT topic with
      | (calls', Raise e) => (calls ++ calls', Raise e)
      | (calls', Ok sub) => (calls ++ calls', Ok (topic, sub))
      end
  end.

(** A first run: nothing exists yet, so both deletions fail with
    [NotFound]; the service names what it creates as asked. *)
Definition first_run : PubSubClients :=
  {| topic_path := fun project topic => "projects/" +:+ project +:+ "/topics/" +:+ topic;
     subscription_path := fun project sub =>
       "projects/" +:+ project +:+ "/subscriptions/" +:+ sub;
     delete_topic := fun _ => Raise (Vendor "NotFound");
     create_topic := fun path => Ok path;
     delete_subscription := fun _ => Raise (Vendor "NotFound");
     create_subscription_rpc := fun sub_path _ => Ok sub_path |}.

(** A run interrupted from the keyboard during the first deletion. *)
Definition interrupted : PubSubClients :=
  {| topic_path := topic_path first_run;
     subscription_path := subscription_path first_run;
     delete_topic := fun _ => Raise (NonException "KeyboardInterrupt");
     create_topic := create_topic first_run;
     delete_subscription := delete_subscription first_run;
     create_subscription_rpc := create_subscription_rpc first_run |}.

End StreamingBeamTest.

(* ===================================================================== *)
(** * Part II: theorems                                                  *)
(* ===================================================================== *)

Module FirestoreFacts.
Import Py Firestore.

(** What [to_dict] writes: the three mandatory keys always, the three
    optional ones exactly when their value is truthy. *)
Lemma to_dict_lookup (c : City) (k : string) :
  to_dict c !! k =
    if decide (k = "name") then Some (name c)
    else if decide (k = "state") then Some (state c)
    else if decide (k = "country") then Some (country c)
    else if decide (k = "capital") then
      (if truthy (capital c) then Some (capital c) else None)
    else if decide (k = "population") then
      (if truthy (population c) then Some (population c) else None)
    else if decide (k = "regions") then
      (if truthy (regions c) then Some (regions c) else None)
    else None.
Proof.
  unfold to_dict.
  destruct (truthy (capital c)), (truthy (population c)), (truthy (regions c));
    repeat case_decide; by simplify_map_eq.
Qed.

Lemma to_dict_capital c :
  to_dict c !! "capital" = if truthy (capital c) then Some (capital c) else None.
Proof. by rewrite to_dict_lookup. Qed.

Lemma to_dict_population c :
  to_dict c !! "population" = if truthy (population c) then Some (population c) else None.
Proof. by rewrite to_dict_lookup. Qed.

Lemma to_dict_regions c :
  to_dict c !! "regions" = if truthy (regions c) then Some (regions c) else None.
Proof. by rewrite to_dict_lookup. Qed.

(** A falsy boolean, integer or list is the constructor default. *)
Lemma falsy_bool b : truthy (VBool b) = false -> VBool b = VBool false.
Proof. by destruct b. Qed.

Lemma falsy_int n : truthy (VInt n) = false -> VInt n = VInt 0.
Proof. simpl. intros H. apply negb_false_iff, Z.eqb_eq in H. by subst. Qed.

Lemma falsy_list l : truthy (VList l) = false -> VList l = VList [].
Proof. by destruct l. Qed.

(** The round trip for any boolean, integer (of either sign) and list. *)
Lemma from_dict_to_dict_gen n s c b p l :
  let city := mkCity n s c (VBool b) (VInt p) (VList l) in
  from_dict (to_dict city) = Ok city.
Proof.
  intros city. unfold from_dict, getitem.
  rewrite to_dict_capital, to_dict_population, to_dict_regions.
  rewrite !to_dict_lookup.
  change (capital city) with (VBool b).
  change (population city) with (VInt p).
  change (regions city) with (VList l).
  destruct (truthy (VBool b)) eqn:Hb, (truthy (VInt p)) eqn:Hp,
    (truthy (VList l)) eqn:Hl; unfold city, City_init; simpl;
    repeat match goal with
    | H : truthy (VBool _) = false |- _ => apply falsy_bool in H; try rewrite H
    | H : truthy (VInt _) = false |- _ => apply falsy_int in H; try rewrite H
    | H : truthy (VList _) = false |- _ => apply falsy_list in H; try rewrite H
    end; reflexivity.
Qed.

(** C9. For every City whose capital is a boolean, whose population is a
    non-negative integer and whose regions is a list,
    [City.from_dict(c.to_dict())] is a City with the same six fields; the
    optional keys are absent from the dictionary exactly when their value is
    falsy, and [from_dict] then restores [False], [0] and [[]]. *)
Theorem City_from_dict_to_dict (c : City) :
  conforms c ->
  from_dict (to_dict c) = Ok c /\
  (to_dict c !! "capital" = None <-> truthy (capital c) = false) /\
  (to_dict c !! "population" = None <-> truthy (population c) = false) /\
  (to_dict c !! "regions" = None <-> truthy (regions c) = false) /\
  (truthy (capital c) = false -> capital c = VBool false) /\
  (truthy (population c) = false -> population c = VInt 0) /\
  (truthy (regions c) = false -> regions c = VList []).
Proof.
  intros ([b Hb] & (p & Hp & _) & [l Hl]).
  destruct c as [n s co ca po re]; simpl in *; subst.
  split; [apply from_dict_to_dict_gen |].
  rewrite to_dict_capital, to_dict_population, to_dict_regions.
  cbn [capital population regions].
  repeat split; try (destruct (truthy _); congruence);
    auto using falsy_bool, falsy_int, falsy_list.
Qed.

Lemma City_from_dict_to_dict_witness :
  conforms la /\ from_dict (to_dict la) = Ok la /\ to_dict la !! "regions" = None.
Proof.
  assert (H : conforms la).
  { unfold conforms, la; simpl. repeat split; eauto. exists 0. split; [reflexivity | lia]. }
  pose proof (City_from_dict_to_dict la H) as (Hrt & _ & _ & Hregions & _).
  split; [exact H |]. split; [exact Hrt |]. apply Hregions. reflexivity.
Defined.

End FirestoreFacts.

Module TrainerFacts.
Import Py Trainer.

Lemma validated_loop_ok td sd :
  validated_loop td sd = Ok tt <-> Forall (passes td) sd.
Proof.
  induction sd as [|[f spec] sd IH]; simpl.
  - split; auto.
  - rewrite Forall_cons, <- IH. unfold passes; simpl.
    destruct (td !! f) as [t|] eqn:Ht.
    + destruct (dtype_is_compatible_with _ _) eqn:Hd; simpl.
      * destruct (shape_is_compatible_with _ _) eqn:Hs; simpl.
        -- split; [intros H; split; eauto | tauto].
        -- split; [discriminate | intros [(t' & Ht' & _ & Hs') _]; congruence].
      * split; [discriminate | intros [(t' & Ht' & Hd' & _) _]; congruence].
    + split; [discriminate | intros [(t' & Ht' & _) _]; congruence].
Qed.

Lemma not_passes_raises td item :
  ~ passes td item -> exists e, raises_at td item e.
Proof.
  intros Hn. unfold raises_at, absent, bad_dtype, bad_shape, passes in *.
  destruct (td !! item.1) as [t|] eqn:Ht; [| eauto].
  destruct (dtype_is_compatible_with (spec_dtype item.2) (dtype t)) eqn:Hd.
  - destruct (shape_is_compatible_with (spec_shape item.2) (shape t)) eqn:Hs.
    + destruct Hn; eauto.
    + eexists. right. right. split; [reflexivity |]. split; [eauto |].
      intros (t' & Ht' & Hd'). congruence.
  - eexists. right. left. eauto.
Qed.

Lemma raises_at_not_passes td item e : raises_at td item e -> ~ passes td item.
Proof.
  unfold raises_at, absent, bad_dtype, bad_shape, passes.
  intros [[_ H] | [[_ (t & Ht & Hd)] | [_ [(t & Ht & Hs) _]]]] (t' & Ht' & Hd' & Hs');
    congruence.
Qed.

(** One iteration of the loop. *)
Lemma validated_loop_cons td item sd :
  (passes td item /\ validated_loop td (item :: sd) = validated_loop td sd) \/
  (exists e, raises_at td item e /\ validated_loop td (item :: sd) = Raise e).
Proof.
  destruct item as [f spec]. unfold passes, raises_at, absent, bad_dtype, bad_shape.
  simpl. destruct (td !! f) as [t|] eqn:Ht.
  - destruct (dtype_is_compatible_with (spec_dtype spec) (dtype t)) eqn:Hd; simpl.
    + destruct (shape_is_compatible_with (spec_shape spec) (shape t)) eqn:Hs; simpl.
      * left. eauto.
      * right. eexists. split; [| reflexivity]. right. right.
        split; [reflexivity |]. split; [eauto |].
        intros (t' & Ht' & Hd'). congruence.
    + right. eexists. split; [| reflexivity]. right. left. eauto.
  - right. eexists. split; [| reflexivity]. left. eauto.
Qed.

Lemma raises_at_functional td item e1 e2 :
  raises_at td item e1 -> raises_at td item e2 -> e1 = e2.
Proof.
  unfold raises_at, absent, bad_dtype, bad_shape.
  intros [[-> H1] | [[-> (t1 & Ht1 & Hd1)] | [-> [(t1 & Ht1 & Hs1) Hn1]]]]
         [[-> H2] | [[-> (t2 & Ht2 & Hd2)] | [-> [(t2 & Ht2 & Hs2) Hn2]]]];
    try reflexivity; try congruence.
  - destruct Hn2. eauto.
  - destruct Hn1. eauto.
Qed.

(** The loop raises [e] exactly when the first field that does not pass
    raises [e]. *)
Lemma validated_loop_raise td sd e :
  validated_loop td sd = Raise e <->
  exists item, first_failure td sd item /\ raises_at td item e.
Proof.
  induction sd as [|item sd IH].
  - simpl. split; [discriminate |].
    intros (item & (pre & post & Heq & _) & _). by destruct pre.
  - destruct (validated_loop_cons td item sd) as [[Hp Heq] | (e' & Hr & Heq)];
      rewrite Heq.
    + rewrite IH. split.
      * intros (it & (pre & post & -> & Hpre) & Hr).
        exists it. split; [| done]. exists (item :: pre), post. split; [done |].
        by constructor.
      * intros (it & (pre & post & Hsd & Hpre) & Hr).
        destruct pre as [|x pre]; simpl in Hsd; injection Hsd as <- ->.
        -- by apply raises_at_not_passes in Hr.
        -- exists it. split; [| done]. exists pre, post. split; [done |].
           by inversion Hpre.
    + split.
      * intros [= <-]. exists item. split; [| done]. exists [], sd. by split.
      * intros (it & (pre & post & Hsd & Hpre) & Hr').
        destruct pre as [|x pre]; simpl in Hsd; injection Hsd as <- ->.
        -- f_equal. eauto using raises_at_functional.
        -- inversion Hpre; subst. by apply raises_at_not_passes in Hr.
Qed.

(** Only the fields named by the spec are read. *)
Lemma validated_loop_ext td td' sd :
  (forall item, item ∈ sd -> td' !! item.1 = td !! item.1) ->
  validated_loop td' sd = validated_loop td sd.
Proof.
  induction sd as [|[f spec] sd IH]; intros H; simpl; [done |].
  pose proof (H (f, spec) ltac:(left)) as Hf. simpl in Hf. rewrite Hf.
  rewrite IH; [done |]. intros item Hin. apply H. by right.
Qed.

(** C8 (as the code has it). [validated] walks the fields of [spec_dict] in
    iteration order and raises at the first field that fails a check:
    [KeyError] when it is absent from [tensor_dict], otherwise [TypeError]
    when its dtype is incompatible, otherwise [ValueError] when its shape
    is.  So a [KeyError] implies that some spec field is absent (the
    converse fails when an earlier field raises first).  When nothing is
    raised the result is [tensor_dict] itself, and fields outside
    [spec_dict] are never looked at. *)
Theorem validated_first_failure (td : gmap string Tensor)
    (sd : list (string * TensorSpec)) :
  (forall e, validated td sd = Raise e <->
     exists item, first_failure td sd item /\ raises_at td item e) /\
  (forall r, validated td sd = Ok r <-> r = td /\ Forall (passes td) sd) /\
  ((exists f, validated td sd = Raise (KeyError f)) -> Exists (absent td) sd) /\
  (forall f, validated td sd = Raise (TypeError f) -> Exists (bad_dtype td) sd) /\
  (forall f, validated td sd = Raise (ValueError f) -> Exists (bad_shape td) sd) /\
  (forall td', (forall item, item ∈ sd -> td' !! item.1 = td !! item.1) ->
     validated_loop td' sd = validated_loop td sd).
Proof.
  assert (Hraise : forall e, validated td sd = Raise e <->
     exists item, first_failure td sd item /\ raises_at td item e).
  { intros e. rewrite <- validated_loop_raise. unfold validated.
    destruct (validated_loop td sd); simpl; split; congruence. }
  assert (Hin : forall item, first_failure td sd item -> item ∈ sd).
  { intros item (pre & post & -> & _). apply elem_of_app. right. left. }
  split; [exact Hraise |]. split.
  { intros r. rewrite <- validated_loop_ok. unfold validated.
    destruct (validated_loop td sd) as [[]|]; simpl; split.
    - intros [= <-]. done.
    - intros [-> _]. done.
    - discriminate.
    - intros [_ ?]. discriminate. }
  repeat split.
  - intros [f Hf]. apply Hraise in Hf as (item & Hff & Hr).
    apply Exists_exists. exists item. split; [by apply Hin |].
    destruct Hr as [[_ H] | [[? _] | [? _]]]; [done | discriminate..].
  - intros f Hf. apply Hraise in Hf as (item & Hff & Hr).
    apply Exists_exists. exists item. split; [by apply Hin |].
    destruct Hr as [[? _] | [[_ H] | [? _]]]; [discriminate | done | discriminate].
  - intros f Hf. apply Hraise in Hf as (item & Hff & Hr).
    apply Exists_exists. exists item. split; [by apply Hin |].
    destruct Hr as [[? _] | [[? _] | [_ [H _]]]]; [discriminate.. | done].
  - intros td' Hagree. by apply validated_loop_ext.
Qed.

(** C8 (as worded) fails: with only [distance_from_port] present, and of the
    wrong dtype, [validated] raises [TypeError] although [speed] is absent. *)
Lemma validated_KeyError_not_iff : ~ KeyError_iff_some_absent.
Proof.
  intros H.
  destruct (H {["distance_from_port" := int_column]} (INPUTS_SPEC ++ OUTPUTS_SPEC))
    as [_ Habs].
  destruct Habs as [f Hf].
  - apply Exists_cons_tl, Exists_cons_hd. reflexivity.
  - vm_compute in Hf. discriminate.
Qed.

(** *** serialize followed by deserialize *)

Lemma DType_eqb_eq a b : DType_eqb a b = true <-> a = b.
Proof. destruct a, b; simpl; split; congruence. Qed.

Lemma dims_compatible_sym xs ys : dims_compatible xs ys = dims_compatible ys xs.
Proof.
  revert ys. induction xs as [|x xs IH]; intros [|y ys]; simpl; try reflexivity.
  rewrite IH. f_equal. destruct x, y; simpl; try reflexivity. apply Nat.eqb_sym.
Qed.

Lemma shape_is_compatible_with_sym s1 s2 :
  shape_is_compatible_with s1 s2 = shape_is_compatible_with s2 s1.
Proof. destruct s1, s2; simpl; auto using dims_compatible_sym. Qed.

Lemma assoc_Some_elem {A} (k : string) (d : list (string * A)) v :
  assoc k d = Some v -> (k, v) ∈ d.
Proof.
  induction d as [|[k' v'] d IH]; simpl; [discriminate |].
  destruct (String.eqb_spec k k') as [-> | Hne].
  - intros [= ->]. left.
  - intros H. right. auto.
Qed.

Lemma assoc_None_not_elem {A} (k : string) (d : list (string * A)) :
  assoc k d = None -> k ∉ d.*1.
Proof.
  induction d as [|[k' v'] d IH]; simpl.
  - intros _. apply not_elem_of_nil.
  - destruct (String.eqb_spec k k') as [-> | Hne]; [discriminate |].
    intros H. apply not_elem_of_cons. split; auto.
Qed.

Lemma in_spec_elem sd n : in_spec sd n = true <-> n ∈ sd.*1.
Proof.
  unfold in_spec. destruct (assoc n sd) as [spec|] eqn:Ha.
  - split; [| done]. intros _. apply assoc_Some_elem in Ha.
    apply list_elem_of_fmap. by exists (n, spec).
  - split; [discriminate |]. intros H. by apply assoc_None_not_elem in Ha.
Qed.

Section SerializationFacts.
Context (tf : TensorFlow) (laws : TensorFlow_laws tf).

Lemma convert_values_fully_defined items acc td :
  convert_values tf items acc = Ok td ->
  (forall n t, acc !! n = Some t -> fully_defined (shape t)) ->
  forall n t, td !! n = Some t -> fully_defined (shape t).
Proof.
  revert acc. induction items as [|[f v] items IH]; intros acc; simpl.
  - intros [= ->]. auto.
  - unfold spec_getitem. destruct (assoc f spec_dict) as [spec|]; [| discriminate].
    simpl. destruct (convert_to_tensor v (spec_dtype spec)) as [t0|] eqn:Hc;
      [| discriminate]. simpl.
    intros Hrest Hacc. apply (IH _ Hrest).
    intros n t. rewrite lookup_insert. case_decide.
    + intros [= <-]. by destruct (convert_to_tensor_dtype tf laws _ _ _ Hc).
    + apply Hacc.
Qed.

Lemma convert_values_keys items acc td :
  convert_values tf items acc = Ok td ->
  forall n, is_Some (td !! n) -> is_Some (acc !! n) \/ in_spec spec_dict n = true.
Proof.
  revert acc. induction items as [|[f v] items IH]; intros acc; simpl.
  - intros [= ->]. auto.
  - unfold spec_getitem. destruct (assoc f spec_dict) as [spec|] eqn:Ha; [| discriminate].
    simpl. destruct (convert_to_tensor v (spec_dtype spec)) as [t0|]; [| discriminate].
    simpl. intros Hrest n Hn. destruct (IH _ Hrest n Hn) as [Hacc | Hin]; [| by right].
    rewrite lookup_insert in Hacc. case_decide; [| by left].
    subst. right. unfold in_spec. by rewrite Ha.
Qed.

(** Parsing back what was serialized from a tensor that passes its spec. *)
Lemma parse_tensor_with_spec_serialized t spec :
  fully_defined (shape t) ->
  dtype_is_compatible_with (spec_dtype spec) (dtype t) = true ->
  shape_is_compatible_with (spec_shape spec) (shape t) = true ->
  parse_tensor_with_spec tf (serialize_tensor t) spec = Ok t.
Proof.
  intros Hfd Hd Hs. unfold parse_tensor_with_spec.
  apply DType_eqb_eq in Hd. rewrite Hd.
  rewrite (parse_serialize_tensor tf laws) by done. simpl.
  by rewrite shape_is_compatible_with_sym, Hs.
Qed.

Lemma parse_fields_ok sd (td : gmap string Tensor) items acc :
  (forall n b spec, (n, b) ∈ items -> assoc n sd = Some spec ->
     exists t, td !! n = Some t /\ parse_tensor_with_spec tf b spec = Ok t) ->
  exists acc', parse_fields tf sd items acc = Ok acc' /\
    forall n, acc' !! n =
      if decide (n ∈ items.*1 /\ in_spec sd n = true) then td !! n else acc !! n.
Proof.
  revert acc. induction items as [|[f b] items IH]; intros acc Hitems;
    cbn [parse_fields].
  - exists acc. split; [done |]. intros n. case_decide as H; [| done].
    destruct H as [H _]. by apply elem_of_nil in H.
  - assert (Hrest : forall n b spec, (n, b) ∈ items -> assoc n sd = Some spec ->
       exists t, td !! n = Some t /\ parse_tensor_with_spec tf b spec = Ok t).
    { intros n b' spec Hin. apply Hitems. by right. }
    destruct (assoc f sd) as [spec|] eqn:Ha.
    + destruct (Hitems f b spec ltac:(left) Ha) as (t & Ht & Hp).
      rewrite Hp. simpl.
      destruct (IH (<[f:=t]> acc) Hrest) as (acc' & Hacc' & Hlook).
      exists acc'. split; [done |]. intros n. rewrite Hlook.
      assert (Hf : in_spec sd f = true) by (unfold in_spec; by rewrite Ha).
      repeat case_decide; try done.
      * exfalso. set_solver.
      * rewrite lookup_insert. case_decide; [by subst | ].
        exfalso. set_solver.
      * rewrite lookup_insert. case_decide; [| done]. subst. exfalso. set_solver.
    + destruct (IH acc Hrest) as (acc' & Hacc' & Hlook).
      exists acc'. split; [done |]. intros n. rewrite Hlook.
      assert (Hf : in_spec sd f = false) by (unfold in_spec; by rewrite Ha).
      repeat case_decide; try done; exfalso;
        (destruct (decide (n = f)) as [-> | ?]; [intuition congruence | set_solver]).
Qed.

(** [parse_features] on the items that [parse_example] returns for the
    serialized tensors of [td]. *)
Lemma parse_features_serialized sd (names : list string)
    (td : gmap string Tensor) items :
  Forall (passes td) sd ->
  (forall n t, td !! n = Some t -> fully_defined (shape t)) ->
  (forall n, n ∈ sd.*1 -> n ∈ names) ->
  (forall n b, (n, b) ∈ items <->
     n ∈ names /\ ((fun v => [serialize_tensor (t := tf) v]) <$> td) !! n = Some [b]) ->
  parse_features tf items sd = Ok (restrict sd td).
Proof.
  intros Hpass Hfd Hnames Hitems. rewrite Forall_forall in Hpass.
  unfold parse_features.
  destruct (parse_fields_ok sd td items ∅) as (acc' & -> & Hlook).
  { intros n b spec Hin Ha. apply assoc_Some_elem in Ha.
    destruct (Hpass _ Ha) as (t & Ht & Hd & Hs). simpl in *.
    exists t. split; [done |].
    apply Hitems in Hin as [_ Hb]. rewrite lookup_fmap, Ht in Hb.
    injection Hb as <-. apply parse_tensor_with_spec_serialized; eauto. }
  assert (Heq : acc' = restrict sd td).
  { apply map_eq. intros n. apply option_eq. intros t.
    rewrite Hlook. unfold restrict. rewrite map_lookup_filter_Some, lookup_empty.
    simpl. case_decide as Hdec.
    - intuition.
    - split; [done |]. intros [Ht Hin]. exfalso. apply Hdec. split; [| done].
      apply list_elem_of_fmap. exists (n, serialize_tensor t). split; [done |].
      apply Hitems. split.
      + by apply Hnames, in_spec_elem.
      + by rewrite lookup_fmap, Ht. }
  simpl. rewrite Heq. unfold validated.
  assert (Hok : validated_loop (restrict sd td) sd = Ok tt).
  { apply validated_loop_ok, Forall_forall. intros [n spec] Hel.
    destruct (Hpass _ Hel) as (t & Ht & Hd & Hs). simpl in *.
    exists t. split; [| done]. simpl. unfold restrict.
    apply map_lookup_filter_Some. split; [done |]. simpl.
    apply in_spec_elem, list_elem_of_fmap. by exists (n, spec). }
  by rewrite Hok.
Qed.

Lemma assoc_app {A} (k : string) (l1 l2 : list (string * A)) :
  assoc k (l1 ++ l2) = match assoc k l1 with Some v => Some v | None => assoc k l2 end.
Proof.
  induction l1 as [|[k' v] l1 IH]; simpl; [done |].
  by destruct (String.eqb k k').
Qed.

(** The two parts of the split are the whole dictionary. *)
Lemma restrict_split value_dict td :
  convert_values tf value_dict ∅ = Ok td ->
  restrict INPUTS_SPEC td ∪ restrict OUTPUTS_SPEC td = td.
Proof.
  intros Hconv. apply map_eq. intros n. apply option_eq. intros t.
  rewrite lookup_union_Some_raw. unfold restrict.
  rewrite !map_lookup_filter_Some, map_lookup_filter_None. simpl. split.
  - intros [[H _] | [_ [H _]]]; done.
  - intros Ht. destruct (in_spec INPUTS_SPEC n) eqn:Hi; [by left |].
    right. split; [right; intros x _; congruence |]. split; [done |].
    destruct (convert_values_keys _ _ _ Hconv n) as [Hacc | Hin]; [by eexists | |].
    + rewrite lookup_empty in Hacc. by destruct Hacc.
    + unfold in_spec, spec_dict in Hin. rewrite assoc_app in Hin.
      unfold in_spec in Hi |- *.
      destruct (assoc n INPUTS_SPEC); [discriminate | done].
Qed.

(** Serializing a conforming value dictionary succeeds, and deserializing
    the result gives back its tensors, split by the two specs. *)
Lemma deserialize_serialize value_dict td :
  conforming tf value_dict td ->
  exists b, serialize tf value_dict = Ok b /\
    deserialize tf b = Ok (restrict INPUTS_SPEC td, restrict OUTPUTS_SPEC td).
Proof.
  intros [Hconv Hpass]. unfold serialize. rewrite Hconv. simpl.
  unfold validated. rewrite (proj2 (validated_loop_ok td spec_dict) Hpass). simpl.
  eexists. split; [reflexivity |].
  unfold deserialize.
  destruct (parse_example_serialized tf laws
              ((fun v => [serialize_tensor v]) <$> td)
              (INPUTS_SPEC.*1 ++ OUTPUTS_SPEC.*1)) as (items & -> & Hitems).
  { intros n Hn. rewrite Forall_forall in Hpass.
    assert (Hsd : n ∈ spec_dict.*1) by (unfold spec_dict; by rewrite fmap_app).
    apply list_elem_of_fmap in Hsd as ([n' spec] & -> & Hel).
    destruct (Hpass _ Hel) as (t & Ht & _). simpl in *.
    exists (serialize_tensor t). by rewrite lookup_fmap, Ht. }
  assert (Hfd : forall n t, td !! n = Some t -> fully_defined (shape t)).
  { apply (convert_values_fully_defined _ _ _ Hconv). intros n t.
    by rewrite lookup_empty. }
  unfold spec_dict in Hpass. apply Forall_app in Hpass as [Hin Hout].
  simpl.
  rewrite (parse_features_serialized INPUTS_SPEC
             (INPUTS_SPEC.*1 ++ OUTPUTS_SPEC.*1) td items Hin Hfd);
    [| intros n Hn; apply elem_of_app; by left | done].
  simpl.
  rewrite (parse_features_serialized OUTPUTS_SPEC
             (INPUTS_SPEC.*1 ++ OUTPUTS_SPEC.*1) td items Hout Hfd);
    [| intros n Hn; apply elem_of_app; by right | done].
  reflexivity.
Qed.

End SerializationFacts.

(** The structured instance satisfies the laws. *)
Lemma assoc_list_to_map {A} (k : string) (l : list (string * A)) :
  assoc k l = (list_to_map l : gmap string A) !! k.
Proof.
  induction l as [|[k' v] l IH]; simpl; [by rewrite lookup_empty |].
  destruct (String.eqb_spec k k') as [-> | Hne].
  - by rewrite lookup_insert_eq.
  - by rewrite lookup_insert_ne.
Qed.

Lemma wire_collect_spec (feats : gmap string (list wire)) names :
  (forall n, n ∈ names -> exists b, feats !! n = Some [b]) ->
  exists items, wire_collect (map_to_list feats) names = Ok items /\
    forall n b, (n, b) ∈ items <-> n ∈ names /\ feats !! n = Some [b].
Proof.
  induction names as [|n names IH]; intros Hall; simpl.
  - exists []. split; [done |]. intros n b. split.
    + intros H. by apply elem_of_nil in H.
    + intros [H _]. by apply elem_of_nil in H.
  - destruct (Hall n ltac:(left)) as [b Hb].
    rewrite assoc_list_to_map, list_to_map_to_list, Hb.
    destruct IH as (items & -> & Hitems).
    { intros m Hm. apply Hall. by right. }
    simpl. eexists. split; [reflexivity |]. intros m c.
    rewrite elem_of_cons, Hitems, elem_of_cons. split.
    + intros [Heq | [Hm Hc]].
      * injection Heq as -> ->. auto.
      * auto.
    + intros [[-> | Hm] Hc]; [left | right; auto].
      rewrite Hb in Hc. by injection Hc as ->.
Qed.

Lemma wire_tf_laws : TensorFlow_laws wire_tf.
Proof.
  constructor.
  - intros v d t [= <-]. split; [done |]. by exists [length v; 1%nat].
  - intros t _. simpl. unfold wire_parse_tensor.
    by rewrite (proj2 (DType_eqb_eq _ _) eq_refl).
  - intros feats names. apply wire_collect_spec.
Qed.

(** *** The entry point *)

(** Parsing sets declared attributes only. *)
Lemma parse_tokens_frame decls argv ns seen ns' seen' attr :
  parse_tokens decls argv ns seen = Ok (ns', seen') ->
  attr ∉ map dest decls ->
  ns' !! attr = ns !! attr.
Proof.
  remember (length argv) as n eqn:Hn. revert argv ns seen Hn.
  induction n as [n IH] using Wf_nat.lt_wf_ind.
  intros argv ns seen -> Hparse Hattr. destruct argv as [|tok rest]; simpl in Hparse.
  - by injection Hparse as <- <-.
  - destruct (String.eqb tok "-h" || String.eqb tok "--help"); [discriminate |].
    destruct (find _ decls) as [a|] eqn:Hfind; [| discriminate].
    destruct rest as [|v rest']; [discriminate |].
    destruct (starts_with_dash v); [discriminate |].
    eapply IH in Hparse; [| | reflexivity | done]; [| simpl; lia].
    rewrite Hparse. apply lookup_insert_ne. intros <-. apply Hattr.
    apply find_some in Hfind as [Hin _].
    apply list_elem_of_In, in_map. done.
Qed.

Lemma parse_exact_declared_only : stores_declared_only parse_exact.
Proof.
  intros decls argv args attr Hargs Hattr. unfold parse_exact in Hargs.
  destruct (parse_tokens decls argv _ []) as [[ns seen]|] eqn:Hparse; [| discriminate].
  cbn [bind] in Hargs.
  destruct (forallb _ decls); [| discriminate]. injection Hargs as <-.
  rewrite (parse_tokens_frame _ _ _ _ _ _ attr Hparse Hattr).
  unfold initial_namespace. apply not_elem_of_list_to_map_1.
  rewrite <- list_fmap_compose. exact Hattr.
Qed.

(** C4 (what the code does). Whatever the command line and the
    environment, the entry point never reaches the call of [run]: when
    [parse_args] accepts the command line, reading [args.train_files]
    raises [AttributeError], since the parser declared [--trian-files]. *)
Theorem main_never_calls_run
    (parse_args : list Argument -> list string -> result (gmap string (option string)))
    (environ : gmap string string) (argv : list string) :
  stores_declared_only parse_args ->
  (forall call, main parse_args environ argv <> Ok call) /\
  (forall args, parse_args (parser environ) argv = Ok args ->
     main parse_args environ argv = Raise (AttributeError "train_files")).
Proof.
  intros Hdecl.
  assert (H : forall args, parse_args (parser environ) argv = Ok args ->
     main parse_args environ argv = Raise (AttributeError "train_files")).
  { intros args Hargs. unfold main. rewrite Hargs. cbn [bind]. unfold getattr.
    rewrite (Hdecl _ _ _ "train_files" Hargs); [done |].
    intros Hin. apply list_elem_of_In in Hin. vm_compute in Hin.
    intuition discriminate. }
  split; [| exact H].
  intros call Hcall.
  destruct (parse_args (parser environ) argv) as [args|e] eqn:Hargs.
  - rewrite (H _ eq_refl) in Hcall. discriminate.
  - unfold main in Hcall. rewrite Hargs in Hcall. discriminate.
Qed.

Lemma main_never_calls_run_witness :
  main parse_exact ∅ declared_flags = Raise (AttributeError "train_files").
Proof.
  refine (proj2 (main_never_calls_run parse_exact ∅ declared_flags
                   parse_exact_declared_only) _ _).
  reflexivity.
Defined.

End TrainerFacts.

(** ** Round-trip laws of the corpus *)

Module RoundTripFacts.
Import Py.

(** C1 (as worded) fails: the corpus has a round-trip law.  [City.to_dict]
    followed by [City.from_dict] is the identity on the conforming cities,
    Tokyo being one of them. *)
Lemma City_round_trip_law_holds :
  round_trip_law Firestore.to_dict Firestore.from_dict Firestore.conforms /\
  Firestore.conforms Firestore.tokyo /\
  Firestore.from_dict (Firestore.to_dict Firestore.tokyo) = Ok Firestore.tokyo.
Proof.
  assert (Hlaw : round_trip_law Firestore.to_dict Firestore.from_dict Firestore.conforms).
  { intros c ([b Hb] & (p & Hp & _) & [l Hl]).
    destruct c as [n s co ca po re]; simpl in *; subst.
    apply FirestoreFacts.from_dict_to_dict_gen. }
  assert (Htokyo : Firestore.conforms Firestore.tokyo).
  { repeat split; simpl; eauto. exists 9000000. split; [reflexivity | lia]. }
  auto.
Qed.

(** C1 (as the code has it). Round-trip laws hold in the corpus:
    [City.from_dict(c.to_dict())] gives back [c] for every conforming city,
    and, TensorFlow's codecs being inverse to each other,
    [deserialize(serialize(v))] gives back the tensors of every value
    dictionary that conforms to [INPUTS_SPEC] and [OUTPUTS_SPEC], split into
    the inputs and the outputs, which together are all of them. *)
Theorem round_trip_laws_hold :
  round_trip_law Firestore.to_dict Firestore.from_dict Firestore.conforms /\
  (forall tf, Trainer.TensorFlow_laws tf ->
   forall value_dict td, Trainer.conforming tf value_dict td ->
   exists b, Trainer.serialize tf value_dict = Ok b /\
     Trainer.deserialize tf b =
       Ok (Trainer.restrict Trainer.INPUTS_SPEC td,
           Trainer.restrict Trainer.OUTPUTS_SPEC td) /\
     Trainer.restrict Trainer.INPUTS_SPEC td ∪ Trainer.restrict Trainer.OUTPUTS_SPEC td = td).
Proof.
  split.
  - intros c ([b Hb] & (p & Hp & _) & [l Hl]).
    destruct c as [n s co ca po re]; simpl in *; subst.
    apply FirestoreFacts.from_dict_to_dict_gen.
  - intros tf laws value_dict td Hconf.
    destruct (TrainerFacts.deserialize_serialize tf laws _ _ Hconf) as (b & Hs & Hd).
    exists b. split; [done |]. split; [done |].
    destruct Hconf as [Hconv _]. by eapply TrainerFacts.restrict_split.
Qed.

Lemma sample_values_conforming :
  Trainer.conforming Trainer.wire_tf Trainer.sample_values Trainer.sample_tensors.
Proof.
  split.
  - vm_compute. reflexivity.
  - repeat constructor; eexists; (split; [vm_compute; reflexivity | split; reflexivity]).
Qed.

Lemma round_trip_laws_hold_witness :
  exists b, Trainer.serialize Trainer.wire_tf Trainer.sample_values = Ok b /\
    Trainer.deserialize Trainer.wire_tf b =
      Ok (Trainer.restrict Trainer.INPUTS_SPEC Trainer.sample_tensors,
          Trainer.restrict Trainer.OUTPUTS_SPEC Trainer.sample_tensors) /\
    Trainer.restrict Trainer.INPUTS_SPEC Trainer.sample_tensors ∪
      Trainer.restrict Trainer.OUTPUTS_SPEC Trainer.sample_tensors = Trainer.sample_tensors.
Proof.
  exact (proj2 round_trip_laws_hold Trainer.wire_tf TrainerFacts.wire_tf_laws
           Trainer.sample_values Trainer.sample_tensors sample_values_conforming).
Defined.

End RoundTripFacts.

Module PubSubFacts.
Import Py PubSub.

(** C2 (as worded) fails: when [from_http] raises [MissingRequiredFields],
    [index] does not let it propagate but answers with status 400. *)
Lemma index_catches_MissingRequiredFields :
  index missing_fields no_decode tt =
    Ok ("Failed to find all required cloudevent fields. ", 400) /\
  ~ errors_propagate.
Proof.
  split; [reflexivity |].
  intros H. specialize (H missing_fields no_decode _ eq_refl). discriminate.
Qed.

(** C2 (as the code has it). [index], which is not test code, catches
    [MissingRequiredFields], [InvalidStructuredJSON] and
    [InvalidRequiredFields] raised by the parsing of the request and
    answers each with HTTP 400; it also answers 400 when the event data is
    empty, not a dict, or has no [message] key; an exception of the parsing
    of any other class leaves the handler. *)
Theorem index_bad_request {request : Type} (from_http : request -> result CloudEvent)
    (decode_name : value -> result string) (req : request) :
  (forall cls, from_http req = Raise (Vendor cls) ->
     cls ∈ ["MissingRequiredFields"; "InvalidStructuredJSON"; "InvalidRequiredFields"] ->
     exists body, index from_http decode_name req = Ok (body, 400)) /\
  (forall event, from_http req = Ok event -> bad_envelope (ce_data event) ->
     exists body, index from_http decode_name req = Ok (body, 400)) /\
  (forall e, from_http req = Raise e ->
     (forall cls,
        cls ∈ ["MissingRequiredFields"; "InvalidStructuredJSON"; "InvalidRequiredFields"] ->
        e <> Vendor cls) ->
     index from_http decode_name req = Raise e).
Proof.
  unfold index. repeat split.
  - intros cls -> Hcls. simpl.
    repeat (apply elem_of_cons in Hcls as [-> | Hcls]; [simpl; eauto |]).
    by apply elem_of_nil in Hcls.
  - intros event -> [Hfalsy | [Hnd | (d & Hd & Hmsg)]].
    + rewrite Hfalsy. simpl. eauto.
    + destruct (truthy (ce_data event)); simpl; [| eauto].
      destruct (ce_data event); try discriminate; eauto.
    + rewrite Hd. destruct (truthy (VDict d)); simpl; [| eauto].
      rewrite Hmsg. eauto.
  - intros e -> He.
    assert (Hnone : except_clause e = None).
    { destruct e as [| | | | | |cls]; try reflexivity. simpl.
      destruct (String.eqb_spec cls "MissingRequiredFields") as [-> | _];
        [destruct (He "MissingRequiredFields"); [set_solver | done] |].
      destruct (String.eqb_spec cls "InvalidStructuredJSON") as [-> | _];
        [destruct (He "InvalidStructuredJSON"); [set_solver | done] |].
      destruct (String.eqb_spec cls "InvalidRequiredFields") as [-> | _];
        [destruct (He "InvalidRequiredFields"); [set_solver | done] |].
      reflexivity. }
    by rewrite Hnone.
Qed.

Lemma index_bad_request_witness :
  exists body, index missing_fields no_decode tt = Ok (body, 400).
Proof.
  apply (proj1 (index_bad_request missing_fields no_decode tt) "MissingRequiredFields").
  - reflexivity.
  - left.
Defined.

End PubSubFacts.

Module IAMFacts.
Import Py IAM.

Ltac run_simpl :=
  cbv [rpcs printed call print mbind run_bind mret run_ret]; simpl.

(** C3 (as worded) fails: on a service that answers both requests the
    snippet sends two. *)
Lemma disable_service_account_two_rpcs :
  rpcs (disable_service_account obliging "p" "a") =
    [DisableServiceAccountRequest "projects/p/serviceAccounts/a";
     GetServiceAccountRequest "projects/p/serviceAccounts/a"] /\
  ~ exactly_one_rpc.
Proof.
  split; [reflexivity |].
  intros H. specialize (H obliging "p" "a"). discriminate.
Qed.

(** C3 (as the code has it). [disable_service_account] first sends a
    [DisableServiceAccountRequest]; when that call returns it sends a
    second request, a [GetServiceAccountRequest] for the same name, and
    prints the confirmation exactly when the account it gets is disabled.
    So a run in which the first call returns makes two RPCs. *)
Theorem disable_service_account_rpcs (client : IAMClient) (project_id account : string) :
  let name := "projects/" +:+ project_id +:+ "/serviceAccounts/" +:+ account in
  let r := disable_service_account client project_id account in
  (forall e, disable_service_account_rpc client name = Raise e ->
     rpcs r = [DisableServiceAccountRequest name] /\ r.2 = Raise e /\ printed r = []) /\
  (disable_service_account_rpc client name = Ok tt ->
     rpcs r = [DisableServiceAccountRequest name; GetServiceAccountRequest name] /\
     (forall e, get_service_account_rpc client name = Raise e ->
        r.2 = Raise e /\ printed r = []) /\
     (forall sa, get_service_account_rpc client name = Ok sa ->
        r.2 = Ok tt /\
        printed r = if disabled sa then ["Disabled service account: " +:+ account] else [])).
Proof.
  intros name r. unfold r, disable_service_account. fold name.
  split.
  - intros e He. unfold call. rewrite He. run_simpl; auto.
  - intros Hd. unfold call. rewrite Hd.
    destruct (get_service_account_rpc client name) as [sa|e] eqn:Hg; run_simpl.
    + destruct (disabled sa) eqn:Hdis; simpl;
        (split; [reflexivity |]); (split; [discriminate |]);
        intros sa' [= <-]; by rewrite Hdis.
    + split; [reflexivity |]. split; [| discriminate].
      intros e' [= <-]. auto.
Qed.

Lemma disable_service_account_rpcs_witness :
  rpcs (disable_service_account obliging "p" "a") =
    [DisableServiceAccountRequest "projects/p/serviceAccounts/a";
     GetServiceAccountRequest "projects/p/serviceAccounts/a"].
Proof.
  exact (proj1 (proj2 (disable_service_account_rpcs obliging "p" "a") eq_refl)).
Defined.

End IAMFacts.

Module WsgiFacts.
Import Py Wsgi.

(** *** The loop over the routes *)




(** *** Matching without groups leaves the groups alone *)

Lemma plus_loop_Some a pos s k m :
  plus_loop a pos s k = Some m -> exists pos' s', k pos' s' = Some m.
Proof.
  revert pos. induction s as [|c s IH]; intros pos; simpl; [discriminate |].
  destruct (atom_matches a c); [| discriminate].
  destruct (plus_loop a (S pos) s k) eqn:Hloop.
  - intros [= <-]. eauto.
  - eauto.
Qed.

Lemma rmatch_groupless subject r :
  groupless r = true ->
  forall pos s groups k m,
    rmatch subject r pos s groups k = Some m ->
    exists pos' s', k pos' s' groups = Some m.
Proof.
  induction r as [a| | |a|a|r IH|r1 IH1 r2 IH2]; simpl; intros Hg pos s groups k m.
  - destruct s as [|c s]; [discriminate |].
    destruct (atom_matches a c); [eauto | discriminate].
  - destruct (Nat.eqb pos 0); [eauto | discriminate].
  - destruct (at_end s); [eauto | discriminate].
  - destruct s as [|c s]; [eauto |].
    destruct (atom_matches a c); [| eauto].
    destruct (k (S pos) s groups) eqn:Hk; [| eauto].
    intros [= <-]. eauto.
  - intros H. apply plus_loop_Some in H. eauto.
  - discriminate.
  - apply andb_true_iff in Hg as [Hg1 Hg2]. intros H.
    apply (IH1 Hg1) in H as (pos1 & s1 & H).
    apply (IH2 Hg2) in H. eauto.
Qed.

Lemma search_from_groupless subject r pos s groups :
  groupless r = true -> search_from subject r pos s = Some groups -> groups = [].
Proof.
  intros Hg. revert pos. induction s as [|c s IH]; intros pos; simpl.
  - destruct (rmatch subject r pos "" [] _) eqn:Hm; [| discriminate].
    intros [= <-]. apply (rmatch_groupless _ _ Hg) in Hm as (? & ? & [= <-]). done.
  - destruct (rmatch subject r pos (String c s) [] _) eqn:Hm.
    + intros [= <-]. apply (rmatch_groupless _ _ Hg) in Hm as (? & ? & [= <-]). done.
    + apply IH.
Qed.

(** *** Unanchored on the left *)

(** A pattern that matches [tgt] wherever it stands is found in every
    string that ends in [tgt]. *)
Lemma search_from_suffix subject r tgt :
  (forall pos, is_Some (rmatch subject r pos tgt [] (fun _ _ groups => Some groups))) ->
  forall pre pos, is_Some (search_from subject r pos (pre +:+ tgt)).
Proof.
  intros Htgt. induction pre as [|c pre IH]; intros pos.
  - simpl. destruct (Htgt pos) as [m Hm].
    destruct tgt; simpl; rewrite Hm; eauto.
  - change (String c pre +:+ tgt) with (String c (pre +:+ tgt)). simpl.
    destruct (rmatch subject r pos (String c (pre +:+ tgt)) [] _); eauto.
Qed.

(** *** [^$] matches the empty path only (or a lone newline) *)

Lemma search_from_Bol_later subject pos s r :
  search_from subject (Seq Bol r) (S pos) s = None.
Proof.
  revert pos. induction s as [|c s IH]; intros pos; simpl; [done | apply IH].
Qed.

Lemma re_search_Bol_Eol path :
  at_end path = false -> re_search (Seq Bol Eol) path = None.
Proof.
  intros Hend. unfold re_search. destruct path as [|c path]; [discriminate |].
  cbn [search_from rmatch Nat.eqb]. rewrite Hend.
  apply search_from_Bol_later.
Qed.

Lemma at_end_app pre c1 c2 t :
  at_end (pre +:+ String c1 (String c2 t)) = false.
Proof.
  destruct pre as [|a pre]; [reflexivity |].
  change (at_end (String a (pre +:+ String c1 (String c2 t))) = false).
  destruct pre; reflexivity.
Qed.





End WsgiFacts.

Module ApiKeysFacts.
Import Py ApiKeys.

(** C7. For every project and key id, the request that
    [restrict_api_key_server] hands to [update_key] has [key.name],
    [key.restrictions.server_key_restrictions.allowed_ips] and
    [update_mask] set as the snippet writes them, and every other field of
    the request and of its key at the default. *)
Theorem restrict_api_key_server_request (update_key : UpdateKeyRequest -> result Key)
    (project_id key_id : string) :
  exists request rest,
    (restrict_api_key_server update_key project_id key_id).1 = UpdateKey request :: rest /\
    fields_set project_id key_id request /\
    others_at_default request.
Proof.
  unfold restrict_api_key_server.
  exists (build_request project_id key_id).
  destruct (update_key (build_request project_id key_id)) as [response|e];
    eexists; (split; [reflexivity |]); split.
  all: unfold fields_set, others_at_default, build_request; simpl.
  all: repeat eexists.
Qed.

End ApiKeysFacts.

(** ** More on the dictionaries of City *)

Module CityDictFacts.
Import Py Firestore CityDicts FirestoreFacts.

Lemma truthy_restored dflt v :
  truthy dflt = false -> truthy (restored dflt v) = truthy v.
Proof. unfold restored. intros Hd. by destruct (truthy v) eqn:Hv. Qed.

Lemma to_dict_normalized c : to_dict (normalized c) = to_dict c.
Proof.
  apply map_eq. intros k. rewrite !to_dict_lookup.
  cbn [normalized name state country capital population regions].
  rewrite !truthy_restored by reflexivity.
  unfold restored.
  destruct (truthy (capital c)), (truthy (population c)), (truthy (regions c));
    reflexivity.
Qed.

(** X1. For every city, of whatever attribute values,
    [City.from_dict(c.to_dict())] succeeds and is [c] with each falsy
    optional attribute replaced by its constructor default; a second
    [to_dict] gives the same dictionary as the first. *)
Theorem from_dict_to_dict_normalizes (c : City) :
  from_dict (to_dict c) = Ok (normalized c) /\
  (from_dict (to_dict c) = Ok c <-> normalized c = c) /\
  to_dict (normalized c) = to_dict c.
Proof.
  assert (H : from_dict (to_dict c) = Ok (normalized c)).
  { unfold from_dict, getitem.
    rewrite to_dict_capital, to_dict_population, to_dict_regions.
    rewrite !to_dict_lookup. unfold normalized, restored, City_init.
    destruct (truthy (capital c)), (truthy (population c)), (truthy (regions c));
      reflexivity. }
  split; [exact H |]. split; [| apply to_dict_normalized].
  rewrite H. split; congruence.
Qed.

(** X2. [City.from_dict] needs the keys [name], [state] and [country], and
    only those: it succeeds exactly when the three are present, raises
    [KeyError] for the first of them, in that order, that is missing, and
    its result does not depend on any key other than the six it reads. *)
Theorem from_dict_KeyError (d : gmap string value) :
  ((exists c, from_dict d = Ok c) <-> forall k, k ∈ mandatory_keys -> is_Some (d !! k)) /\
  (d !! "name" = None -> from_dict d = Raise (KeyError "name")) /\
  (is_Some (d !! "name") -> d !! "state" = None ->
     from_dict d = Raise (KeyError "state")) /\
  (is_Some (d !! "name") -> is_Some (d !! "state") -> d !! "country" = None ->
     from_dict d = Raise (KeyError "country")) /\
  (forall k v, k ∉ mandatory_keys ++ optional_keys ->
     from_dict (<[k := v]> d) = from_dict d).
Proof.
  unfold from_dict, getitem, mandatory_keys, optional_keys.
  split; [| split; [| split; [| split]]].
  - split.
    + intros [c Hc] k Hk.
      destruct (d !! "name") eqn:Hn; [| discriminate].
      destruct (d !! "state") eqn:Hs; [| discriminate].
      destruct (d !! "country") eqn:Hco; [| discriminate].
      repeat (apply elem_of_cons in Hk as [-> | Hk]; [by eexists |]).
      by apply elem_of_nil in Hk.
    + intros H.
      destruct (H "name") as [n ->]; [set_solver |].
      destruct (H "state") as [st ->]; [set_solver |].
      destruct (H "country") as [co ->]; [set_solver |].
      simpl. eauto.
  - by intros ->.
  - by intros [n ->] ->.
  - by intros [n ->] [st ->] ->.
  - intros k v Hk.
    rewrite !lookup_insert_ne; [done | | | | | |]; intros ->; apply Hk; set_solver.
Qed.

(** X3. On a dictionary of the form that [to_dict] produces,
    [City.from_dict] succeeds and [to_dict] of the result is the dictionary
    again. *)
Theorem to_dict_from_dict (d : gmap string value) :
  canonical d ->
  exists c, from_dict d = Ok c /\ to_dict c = d.
Proof.
  intros (Hmand & Hopt & Hkeys).
  destruct (Hmand "name") as [n Hn]; [set_solver |].
  destruct (Hmand "state") as [st Hst]; [set_solver |].
  destruct (Hmand "country") as [co Hco]; [set_solver |].
  unfold from_dict, getitem. rewrite Hn, Hst, Hco. cbn [bind].
  eexists. split; [reflexivity |].
  apply map_eq. intros k. rewrite to_dict_lookup.
  pose proof (Hopt "capital") as Hca. pose proof (Hopt "population") as Hpo.
  pose proof (Hopt "regions") as Hre.
  unfold City_init.
  destruct (d !! "capital") as [ca|] eqn:Eca;
    destruct (d !! "population") as [po|] eqn:Epo;
    destruct (d !! "regions") as [re|] eqn:Ere;
    cbn [name state country capital population regions default];
    try rewrite (Hca ca) by (set_solver || done);
    try rewrite (Hpo po) by (set_solver || done);
    try rewrite (Hre re) by (set_solver || done);
    repeat case_decide; subst; try done;
    (destruct (d !! k) eqn:Hk; [| done]);
    (exfalso; specialize (Hkeys k ltac:(by eexists)); set_solver).
Qed.

Lemma la_data_canonical : canonical la_data.
Proof.
  unfold canonical, la_data, mandatory_keys, optional_keys. repeat split.
  - intros k Hk.
    repeat (apply elem_of_cons in Hk as [-> | Hk]; [by eexists |]).
    by apply elem_of_nil in Hk.
  - intros k v Hk Hv.
    repeat (apply elem_of_cons in Hk as [-> | Hk]; [discriminate |]).
    by apply elem_of_nil in Hk.
  - intros k [v Hv].
    destruct (decide (k = "country")) as [-> | ?]; [set_solver |].
    destruct (decide (k = "state")) as [-> | ?]; [set_solver |].
    destruct (decide (k = "name")) as [-> | ?]; [set_solver |].
    by rewrite !lookup_insert_ne, lookup_empty in Hv.
Qed.

Lemma to_dict_from_dict_witness :
  exists c, from_dict la_data = Ok c /\ to_dict c = la_data.
Proof. exact (to_dict_from_dict la_data la_data_canonical). Defined.

(** X4. Whatever the city, the dictionary of [to_dict] has the keys
    [name], [state] and [country], has no key outside the six attributes,
    and holds no falsy value under [capital], [population] or [regions]. *)
Theorem to_dict_canonical (c : City) : canonical (to_dict c).
Proof.
  unfold canonical, mandatory_keys, optional_keys. repeat split.
  - intros k Hk. rewrite to_dict_lookup.
    repeat (apply elem_of_cons in Hk as [-> | Hk]; [by eexists |]).
    by apply elem_of_nil in Hk.
  - intros k v Hk Hv.
    apply elem_of_cons in Hk as [-> | Hk].
    { rewrite to_dict_capital in Hv.
      destruct (truthy (capital c)) eqn:Ht; [by injection Hv as <- | discriminate]. }
    apply elem_of_cons in Hk as [-> | Hk].
    { rewrite to_dict_population in Hv.
      destruct (truthy (population c)) eqn:Ht; [by injection Hv as <- | discriminate]. }
    apply elem_of_cons in Hk as [-> | Hk].
    { rewrite to_dict_regions in Hv.
      destruct (truthy (regions c)) eqn:Ht; [by injection Hv as <- | discriminate]. }
    by apply elem_of_nil in Hk.
  - intros k [v Hv]. rewrite to_dict_lookup in Hv.
    repeat case_decide; subst; set_solver.
Qed.

End CityDictFacts.

(** ** More on trainer.py *)

Module TrainerShapeFacts.
Import Py Trainer TrainerShapes TrainerFacts.

Lemma validated_Ok_iff td sd : validated td sd = Ok td <-> Forall (passes td) sd.
Proof.
  rewrite <- validated_loop_ok. unfold validated.
  destruct (validated_loop td sd) as [[]|]; simpl; split; congruence.
Qed.

(** X5. Whether [validated] accepts a tensor dictionary does not depend on
    the order in which the spec lists its fields (only the error raised
    does), and a spec made of two parts is accepted exactly when both parts
    are. *)
Theorem validated_success_order (td : gmap string Tensor)
    (sd sd' sd1 sd2 : list (string * TensorSpec)) :
  (sd ≡ₚ sd' -> (validated td sd = Ok td <-> validated td sd' = Ok td)) /\
  (validated td (sd1 ++ sd2) = Ok td <->
     validated td sd1 = Ok td /\ validated td sd2 = Ok td).
Proof.
  rewrite !validated_Ok_iff. split.
  - intros Hperm. by rewrite Hperm.
  - apply Forall_app.
Qed.

Lemma spec_is_column item : item ∈ spec_dict -> item.2 = column_spec.
Proof.
  unfold spec_dict, INPUTS_SPEC, OUTPUTS_SPEC. simpl. intros H.
  repeat (apply elem_of_cons in H as [-> | H]; [reflexivity |]).
  by apply elem_of_nil in H.
Qed.

Lemma passes_is_column td item t :
  item ∈ spec_dict -> passes td item -> td !! item.1 = Some t -> is_column t.
Proof.
  intros Hin (t' & Ht' & Hd & Hs) Ht. rewrite Ht in Ht'. injection Ht' as <-.
  rewrite (spec_is_column _ Hin) in Hd, Hs. split; [| exact Hs].
  symmetry. by apply DType_eqb_eq.
Qed.

Section Shapes.
Context (tf : TensorFlow).

Lemma parse_fields_keys sd items acc td :
  parse_fields tf sd items acc = Ok td ->
  forall n, is_Some (td !! n) -> is_Some (acc !! n) \/ in_spec sd n = true.
Proof.
  revert acc. induction items as [|[f b] items IH]; intros acc; cbn [parse_fields].
  - intros [= ->]. auto.
  - destruct (assoc f sd) as [spec|] eqn:Ha; [| apply IH].
    destruct (parse_tensor_with_spec tf b spec) as [t|]; [| discriminate].
    cbn [bind]. intros Hrest n Hn.
    destruct (IH _ Hrest n Hn) as [Hacc | Hin]; [| by right].
    rewrite lookup_insert in Hacc. case_decide; [| by left].
    subst. right. unfold in_spec. by rewrite Ha.
Qed.

Lemma parse_features_conforms example sd td :
  parse_features tf example sd = Ok td ->
  keys_exactly sd td /\ Forall (passes td) sd.
Proof.
  unfold parse_features.
  destruct (parse_fields tf sd example ∅) as [td'|] eqn:Hp; [| discriminate].
  cbn [bind]. intros Hv.
  assert (td' = td) as ->.
  { unfold validated in Hv. destruct (validated_loop td' sd); simpl in Hv; congruence. }
  apply validated_Ok_iff in Hv. split; [| exact Hv].
  intros n. split.
  - intros Hn. destruct (parse_fields_keys _ _ _ _ Hp n Hn) as [Hacc | Hin].
    + rewrite lookup_empty in Hacc. by destruct Hacc.
    + by apply in_spec_elem.
  - intros Hn. apply list_elem_of_fmap in Hn as ([n' spec] & -> & Hel).
    rewrite Forall_forall in Hv. destruct (Hv _ Hel) as (t & Ht & _). by eexists.
Qed.

(** X6. Whatever bytes it is given, when [deserialize] returns, the first
    dictionary has exactly the five fields of [INPUTS_SPEC], the second
    exactly [is_fishing], and every tensor is a [float32] tensor of a shape
    compatible with [(None, 1)]. *)
Theorem deserialize_conforms (b : bytes tf) (inputs outputs : gmap string Tensor) :
  deserialize tf b = Ok (inputs, outputs) ->
  keys_exactly INPUTS_SPEC inputs /\
  keys_exactly OUTPUTS_SPEC outputs /\
  (forall n t, inputs !! n = Some t \/ outputs !! n = Some t -> is_column t).
Proof.
  unfold deserialize.
  destruct (parse_example b _) as [example|]; [| discriminate]. cbn [bind].
  destruct (parse_features tf example INPUTS_SPEC) as [i|] eqn:Hi; [| discriminate].
  cbn [bind].
  destruct (parse_features tf example OUTPUTS_SPEC) as [o|] eqn:Ho; [| discriminate].
  cbn [bind]. intros [= <- <-].
  apply parse_features_conforms in Hi as [Hik Hip], Ho as [Hok Hop].
  split; [exact Hik |]. split; [exact Hok |].
  rewrite Forall_forall in Hip, Hop.
  intros n t [Ht | Ht].
  - assert (Hn : n ∈ INPUTS_SPEC.*1) by (apply Hik; by eexists).
    apply list_elem_of_fmap in Hn as ([n' spec] & -> & Hel).
    apply (passes_is_column i (n', spec)); auto.
    unfold spec_dict. apply elem_of_app. by left.
  - assert (Hn : n ∈ OUTPUTS_SPEC.*1) by (apply Hok; by eexists).
    apply list_elem_of_fmap in Hn as ([n' spec] & -> & Hel).
    apply (passes_is_column o (n', spec)); auto.
    unfold spec_dict. apply elem_of_app. by right.
Qed.

Lemma convert_values_dom items acc td :
  convert_values tf items acc = Ok td ->
  (forall n, n ∈ items.*1 -> n ∈ spec_dict.*1) /\
  (forall n, is_Some (td !! n) <-> is_Some (acc !! n) \/ n ∈ items.*1).
Proof.
  revert acc. induction items as [|[f v] items IH]; intros acc; cbn [convert_values].
  - intros [= ->]. split; [intros n Hn; by apply elem_of_nil in Hn |].
    intros n. split; [by left |]. intros [? | Hn]; [done | by apply elem_of_nil in Hn].
  - unfold spec_getitem. destruct (assoc f spec_dict) as [spec|] eqn:Ha; [| discriminate].
    cbn [bind]. destruct (convert_to_tensor v (spec_dtype spec)) as [t|]; [| discriminate].
    cbn [bind]. intros Hrest. destruct (IH _ Hrest) as [Hknown Hdom].
    assert (Hf : f ∈ spec_dict.*1).
    { apply in_spec_elem. unfold in_spec. by rewrite Ha. }
    split.
    + intros n Hn. rewrite fmap_cons in Hn.
      apply elem_of_cons in Hn as [-> | Hn]; auto.
    + intros n. rewrite Hdom, fmap_cons, elem_of_cons, lookup_insert.
      case_decide as Hfn; simpl.
      * subst. split; intros _; [right; by left | left; by eexists].
      * split.
        -- intros [H | H]; [by left | right; by right].
        -- intros [H | [-> | H]]; [by left | done | by right].
Qed.

(** X7. [serialize] succeeds only on a value dictionary whose fields are
    exactly the six fields of [INPUTS_SPEC] and [OUTPUTS_SPEC]: a field
    outside them, or one of them left out, makes it raise. *)
Theorem serialize_exact_fields (value_dict : list (string * pyobj tf)) (b : bytes tf) :
  serialize tf value_dict = Ok b ->
  forall n, n ∈ value_dict.*1 <-> n ∈ spec_dict.*1.
Proof.
  unfold serialize.
  destruct (convert_values tf value_dict ∅) as [td|] eqn:Hconv; [| discriminate].
  cbn [bind].
  destruct (validated td spec_dict) as [td'|] eqn:Hv; [| discriminate].
  intros _ n. destruct (convert_values_dom _ _ _ Hconv) as [Hknown Hdom].
  split; [apply Hknown |]. intros Hn.
  assert (td' = td) as ->.
  { unfold validated in Hv. destruct (validated_loop td spec_dict); simpl in Hv; congruence. }
  apply validated_Ok_iff in Hv. rewrite Forall_forall in Hv.
  apply list_elem_of_fmap in Hn as ([n' spec] & -> & Hel).
  destruct (Hv _ Hel) as (t & Ht & _). simpl in *.
  destruct (proj1 (Hdom n') ltac:(by eexists)) as [Hacc | Hin]; [| done].
  rewrite lookup_empty in Hacc. by destruct Hacc.
Qed.

Lemma convert_values_dtype (laws : TensorFlow_laws tf) items acc td :
  convert_values tf items acc = Ok td ->
  (forall n t, acc !! n = Some t -> dtype t = float32) ->
  forall n t, td !! n = Some t -> dtype t = float32.
Proof.
  revert acc. induction items as [|[f v] items IH]; intros acc; cbn [convert_values].
  - intros [= ->]. auto.
  - unfold spec_getitem. destruct (assoc f spec_dict) as [spec|] eqn:Ha; [| discriminate].
    cbn [bind].
    destruct (convert_to_tensor v (spec_dtype spec)) as [t0|] eqn:Hc; [| discriminate].
    cbn [bind]. intros Hrest Hacc. apply (IH _ Hrest).
    intros n t. rewrite lookup_insert. case_decide; [| apply Hacc].
    intros [= <-]. destruct (convert_to_tensor_dtype tf laws _ _ _ Hc) as [-> _].
    apply assoc_Some_elem in Ha. pose proof (spec_is_column _ Ha) as Hs.
    simpl in Hs. by rewrite Hs.
Qed.

(** X8. Inside [serialize] the dtype check of [validated] cannot fail:
    every value was converted to the dtype of its spec, so validating the
    converted tensors never raises [TypeError] (only [KeyError] for a
    missing field or [ValueError] for a shape). *)
Theorem serialize_dtype_check_passes (laws : TensorFlow_laws tf)
    (value_dict : list (string * pyobj tf)) (td : gmap string Tensor) (f : string) :
  convert_values tf value_dict ∅ = Ok td ->
  validated td spec_dict <> Raise (TypeError f).
Proof.
  intros Hconv Hraise.
  assert (Hloop : validated_loop td spec_dict = Raise (TypeError f)).
  { unfold validated in Hraise.
    destruct (validated_loop td spec_dict); simpl in Hraise; congruence. }
  apply validated_loop_raise in Hloop as (item & (pre & post & Hsd & _) & Hr).
  assert (Hin : item ∈ spec_dict) by (rewrite Hsd; set_solver).
  destruct Hr as [[? _] | [[_ (t & Ht & Hd)] | [? _]]]; [discriminate | | discriminate].
  rewrite (spec_is_column _ Hin) in Hd.
  assert (Hf32 : dtype t = float32).
  { apply (convert_values_dtype laws _ _ _ Hconv) with (n := item.1); [| exact Ht].
    intros n t'. by rewrite lookup_empty. }
  rewrite Hf32 in Hd. discriminate.
Qed.

End Shapes.

Lemma deserialize_conforms_witness :
  keys_exactly INPUTS_SPEC (restrict INPUTS_SPEC sample_tensors) /\
  keys_exactly OUTPUTS_SPEC (restrict OUTPUTS_SPEC sample_tensors) /\
  (forall n t, restrict INPUTS_SPEC sample_tensors !! n = Some t \/
               restrict OUTPUTS_SPEC sample_tensors !! n = Some t -> is_column t).
Proof.
  apply (deserialize_conforms wire_tf sample_bytes). vm_compute. reflexivity.
Defined.

Lemma serialize_exact_fields_witness :
  "lat" ∈ sample_values.*1 <-> "lat" ∈ spec_dict.*1.
Proof.
  apply (serialize_exact_fields wire_tf sample_values sample_bytes).
  vm_compute. reflexivity.
Defined.

Lemma serialize_dtype_check_passes_witness :
  validated sample_tensors spec_dict <> Raise (TypeError "speed").
Proof.
  apply (serialize_dtype_check_passes wire_tf wire_tf_laws sample_values).
  vm_compute. reflexivity.
Defined.

End TrainerShapeFacts.

(** ** More on the Pub/Sub handler *)

Module PubSubGreetingFacts.
Import Py PubSub PubSubGreeting.

Section Greeting.
Context {request : Type}.
Variable from_http : request -> result CloudEvent.
Variable decode_name : value -> result string.
Variable req : request.

(** X9. [index] answers with status 200 or 400 and no other.  When the
    event data is a non-empty dict with a [message], the answer is the
    greeting with status 200: to [World] when the message is not a dict or
    has no [data] (nothing is decoded then), to the decoded name
    otherwise; and a 200 is given in no other case. *)
Theorem index_greeting :
  (forall body status, index from_http decode_name req = Ok (body, status) ->
     status = 200 \/ status = 400) /\
  (forall event d message,
     from_http req = Ok event -> ce_data event = VDict d -> d <> [] ->
     assoc "message" d = Some message ->
     (message_data message = None ->
        index from_http decode_name req = Ok (greeting "World" event, 200)) /\
     (forall data, message_data message = Some data ->
        index from_http decode_name req =
          (name <- decode_name data ;; Ok (greeting name event, 200)))) /\
  (forall body, index from_http decode_name req = Ok (body, 200) ->
     exists event d message,
       from_http req = Ok event /\ ce_data event = VDict d /\
       assoc "message" d = Some message).
Proof.
  unfold index, greeting. split; [| split].
  - intros body status.
    destruct (from_http req) as [event|e].
    + destruct (truthy (ce_data event)); simpl; [| intros [= _ <-]; auto].
      destruct (ce_data event) as [| | | | | |d]; try (intros [= _ <-]; auto).
      destruct (assoc "message" d) as [message|]; [| intros [= _ <-]; auto].
      destruct message as [| | | | | |m]; simpl; try (intros [= _ <-]; auto).
      destruct (assoc "data" m) as [data|]; simpl; [| intros [= _ <-]; auto].
      destruct (decode_name data); simpl; [intros [= _ <-]; auto | discriminate].
    + destruct (except_clause e); [intros [= _ <-]; auto | discriminate].
  - intros event d message -> -> Hd ->.
    assert (Ht : truthy (VDict d) = true) by (by destruct d).
    rewrite Ht. simpl. split.
    + intros Hmd. destruct message as [| | | | | |m]; simpl in *; try reflexivity.
      by rewrite Hmd.
    + intros data Hmd. destruct message as [| | | | | |m]; simpl in *; try discriminate.
      by rewrite Hmd.
  - intros body.
    destruct (from_http req) as [event|e].
    + destruct (truthy (ce_data event)); simpl; [| discriminate].
      destruct (ce_data event) as [| | | | | |d] eqn:Hd; try discriminate.
      destruct (assoc "message" d) as [message|] eqn:Hm; [| discriminate].
      intros _. exists event, d, message. auto.
    + destruct (except_clause e); discriminate.
Qed.

(** X10. An exception leaves [index] in two cases only: the parsing of the
    request raised it and it is not one of the three caught classes, or the
    decoding of the message data raised it. *)
Theorem index_raises (e : exn) :
  index from_http decode_name req = Raise e ->
  (from_http req = Raise e /\ except_clause e = None) \/
  (exists event d message data,
     from_http req = Ok event /\ ce_data event = VDict d /\
     assoc "message" d = Some message /\ message_data message = Some data /\
     decode_name data = Raise e).
Proof.
  unfold index.
  destruct (from_http req) as [event|e'].
  - destruct (truthy (ce_data event)); simpl; [| discriminate].
    destruct (ce_data event) as [| | | | | |d] eqn:Hd; try discriminate.
    destruct (assoc "message" d) as [message|] eqn:Hm; [| discriminate].
    destruct message as [| | | | | |m]; simpl; try discriminate.
    destruct (assoc "data" m) as [data|] eqn:Hdata; simpl; [| discriminate].
    destruct (decode_name data) eqn:Hdec; simpl; [discriminate |].
    intros [= <-]. right. exists event, d, (VDict m), data. auto.
  - destruct (except_clause e') eqn:Hc; [discriminate |].
    intros [= <-]. by left.
Qed.

End Greeting.

Lemma index_greeting_witness :
  index (push_event (VStr "ping")) no_decode tt = Ok ("Hello, World! ID: 42", 200).
Proof.
  refine (proj1 (proj1 (proj2 (index_greeting (push_event (VStr "ping")) no_decode tt))
            _ _ _ eq_refl eq_refl _ eq_refl) eq_refl).
  discriminate.
Defined.

Lemma index_raises_witness :
  (bad_headers tt = Raise (Vendor "InvalidHeadersFormat") /\
   except_clause (Vendor "InvalidHeadersFormat") = None) \/
  (exists event d message data,
     bad_headers tt = Ok event /\ ce_data event = VDict d /\
     assoc "message" d = Some message /\ message_data message = Some data /\
     no_decode data = Raise (Vendor "InvalidHeadersFormat")).
Proof.
  apply (index_raises bad_headers no_decode tt). reflexivity.
Defined.

End PubSubGreetingFacts.

(** ** More on the WSGI application: which paths reach which handler *)

Module BlobstoreFacts.
Import Py Wsgi Blobstore WsgiFacts.

Local Abbreviation accept :=
  (fun (_ : nat) (_ : string) (groups : list string) => Some groups).

(** *** Literal prefixes *)

Lemma rmatch_lit subject w r pos s groups k :
  rmatch subject (lit w r) pos (w +:+ s) groups k =
  rmatch subject r (pos + String.length w)%nat s groups k.
Proof.
  revert pos. induction w as [|c w IH]; intros pos; simpl.
  - by rewrite Nat.add_0_r.
  - rewrite Ascii.eqb_refl, IH. f_equal. lia.
Qed.

Lemma rmatch_lit_inv subject w r pos s groups k m :
  rmatch subject (lit w r) pos s groups k = Some m ->
  exists s', s = w +:+ s' /\
    rmatch subject r (pos + String.length w)%nat s' groups k = Some m.
Proof.
  revert pos s. induction w as [|c w IH]; intros pos s; simpl.
  - intros H. exists s. by rewrite Nat.add_0_r.
  - destruct s as [|c' s]; [discriminate |].
    destruct (Ascii.eqb_spec c c') as [<- | ?]; [| discriminate].
    intros H. apply IH in H as (s' & -> & H). exists s'. split; [done |].
    by replace (pos + S (String.length w))%nat with (S pos + String.length w)%nat by lia.
Qed.

(** A match found by the search starts somewhere in the string. *)
Lemma search_from_inv subject r pos s g :
  search_from subject r pos s = Some g ->
  exists pre s', s = pre +:+ s' /\
    rmatch subject r (pos + String.length pre)%nat s' [] accept = Some g.
Proof.
  revert pos. induction s as [|c s IH]; intros pos; simpl.
  - destruct (rmatch subject r pos "" [] _) eqn:Hm; [| discriminate].
    intros [= <-]. exists "", "". by rewrite Nat.add_0_r.
  - destruct (rmatch subject r pos (String c s) [] _) eqn:Hm.
    + intros [= <-]. exists "", (String c s). by rewrite Nat.add_0_r.
    + intros H. apply IH in H as (pre & s' & -> & H).
      exists (String c pre), s'. split; [done |].
      by replace (pos + String.length (String c pre))%nat
        with (S pos + String.length pre)%nat by (simpl; lia).
Qed.

Lemma at_end_inv s : at_end s = true -> s = "" \/ s = nl.
Proof.
  destruct s as [|c [|c' s]]; simpl; [by left | | discriminate].
  intros H. apply Ascii.eqb_eq in H as ->. by right.
Qed.

(** *** The second route *)

Lemma upload_tail_inv subject pos s g :
  rmatch subject (Seq (OptA (Chr "/")) Eol) pos s [] accept = Some g ->
  s ∈ upload_tails.
Proof.
  unfold upload_tails. cbn [rmatch atom_matches].
  destruct s as [|c s].
  - intros _. left.
  - destruct (Ascii.eqb_spec "/" c) as [<- | Hc].
    + destruct (at_end s) eqn:Hs.
      * intros _. apply at_end_inv in Hs as [-> | ->]; set_solver.
      * destruct (at_end (String "/" s)) eqn:Hs'; [| discriminate].
        apply at_end_inv in Hs' as [? | ?]; discriminate.
    + destruct (at_end (String c s)) eqn:Hs; [| discriminate].
      intros _. apply at_end_inv in Hs as [? | ->]; [discriminate | set_solver].
Qed.

Lemma re_search_upload path :
  upload_shaped path ->
  re_search (lit "upload_photo" (Seq (OptA (Chr "/")) Eol)) path = Some [].
Proof.
  intros (pre & tail & -> & Htail).
  assert (Hsome : is_Some (re_search (lit "upload_photo" (Seq (OptA (Chr "/")) Eol))
                             (pre +:+ "upload_photo" +:+ tail))).
  { unfold re_search. apply search_from_suffix. intros pos.
    unfold upload_tails in Htail.
    repeat (apply elem_of_cons in Htail as [-> | Htail]; [eexists; reflexivity |]).
    by apply elem_of_nil in Htail. }
  destruct Hsome as [g Hg]. rewrite Hg. f_equal.
  by eapply search_from_groupless, Hg.
Qed.

Lemma re_search_upload_inv path g :
  re_search (lit "upload_photo" (Seq (OptA (Chr "/")) Eol)) path = Some g ->
  upload_shaped path.
Proof.
  unfold re_search. intros H.
  apply search_from_inv in H as (pre & s' & Hpath & H).
  apply rmatch_lit_inv in H as (tail & -> & H).
  apply upload_tail_inv in H. by exists pre, tail.
Qed.

Lemma upload_shaped_not_at_end path : upload_shaped path -> at_end path = false.
Proof. intros (pre & tail & -> & _). apply at_end_app. Qed.



(** X12. With the route table [urls], a request reaches
    [UploadPhotoHandler] exactly when its stripped path ends in
    [upload_photo] or [upload_photo/], possibly followed by one newline; it
    is then dispatched with no URL arguments. *)
Theorem upload_photo_iff (environ : gmap string value) (path : string) :
  stripped_path environ = Ok path ->
  ((exists environ', Application_call urls environ = Ok (Dispatch UploadPhotoHandler environ'))
   <-> upload_shaped path) /\
  (upload_shaped path ->
   Application_call urls environ =
     Ok (Dispatch UploadPhotoHandler (<["app.url_args" := VList []]> environ))).
Proof.
  intros Hpath. unfold Application_call. rewrite Hpath. cbn [bind].
  unfold urls. cbn [route].
  assert (Hfwd : upload_shaped path ->
    match re_search (Seq Bol Eol) path with
    | Some groups =>
        Dispatch UploadFormHandler (<["app.url_args":=VList (VStr <$> groups)]> environ)
    | None =>
        match re_search (lit "upload_photo" (Seq (OptA (Chr "/")) Eol)) path with
        | Some groups =>
            Dispatch UploadPhotoHandler (<["app.url_args":=VList (VStr <$> groups)]> environ)
        | None =>
            match re_search (lit "view_photo/" (Seq (Group (PlusA Dot)) Eol)) path with
            | Some groups =>
                Dispatch ViewPhotoHandler (<["app.url_args":=VList (VStr <$> groups)]> environ)
            | None => not_found
            end
        end
    end = Dispatch UploadPhotoHandler (<["app.url_args" := VList []]> environ)).
  { intros Hshape.
    rewrite (re_search_Bol_Eol _ (upload_shaped_not_at_end _ Hshape)).
    by rewrite (re_search_upload _ Hshape). }
  split; [| intros Hshape; f_equal; by apply Hfwd].
  split; [| intros Hshape; eexists; f_equal; by apply Hfwd].
  intros [environ' H].
  destruct (re_search (Seq Bol Eol) path); [discriminate |].
  destruct (re_search (lit "upload_photo" _) path) as [g|] eqn:Hg.
  - by eapply re_search_upload_inv.
  - destruct (re_search (lit "view_photo/" _) path); discriminate.
Qed.

Lemma upload_photo_iff_witness :
  Application_call urls {["PATH_INFO" := VStr ("/upload_photo/" +:+ nl)]} =
    Ok (Dispatch UploadPhotoHandler
          (<["app.url_args" := VList []]> {["PATH_INFO" := VStr ("/upload_photo/" +:+ nl)]})).
Proof.
  refine (proj2 (upload_photo_iff {["PATH_INFO" := VStr ("/upload_photo/" +:+ nl)]}
                   ("upload_photo/" +:+ nl) _) _).
  - reflexivity.
  - exists "", ("/" +:+ nl). split; [reflexivity | unfold upload_tails; set_solver].
Defined.


(** *** The groups of a match *)

Lemma rmatch_group_count subject r :
  forall pos s groups k m,
    rmatch subject r pos s groups k = Some m ->
    exists pos' s' groups',
      k pos' s' groups' = Some m /\
      length groups' = (length groups + count_groups r)%nat.
Proof.
  induction r as [a| | |a|a|r IH|r1 IH1 r2 IH2]; cbn [rmatch count_groups];
    intros pos s groups k m.
  - destruct s as [|c s]; [discriminate |].
    destruct (atom_matches a c); [| discriminate].
    intros H. exists (S pos), s, groups. by rewrite Nat.add_0_r.
  - destruct (Nat.eqb pos 0); [| discriminate].
    intros H. exists pos, s, groups. by rewrite Nat.add_0_r.
  - destruct (at_end s); [| discriminate].
    intros H. exists pos, s, groups. by rewrite Nat.add_0_r.
  - rewrite Nat.add_0_r. destruct s as [|c s]; [eauto |].
    destruct (atom_matches a c); [| eauto].
    destruct (k (S pos) s groups) eqn:Hk; [| eauto].
    intros [= <-]. eauto.
  - rewrite Nat.add_0_r. intros H. apply plus_loop_Some in H as (pos' & s' & H). eauto.
  - intros H. apply IH in H as (pos' & s' & groups' & H & Hlen).
    eexists _, _, _. split; [exact H |].
    rewrite length_insert, Hlen, length_app. simpl. lia.
  - intros H. apply IH1 in H as (pos1 & s1 & groups1 & H & Hlen1).
    apply IH2 in H as (pos2 & s2 & groups2 & H & Hlen2).
    eexists _, _, _. split; [exact H |]. lia.
Qed.

Lemma search_from_group_count subject r pos s g :
  search_from subject r pos s = Some g -> length g = count_groups r.
Proof.
  intros H. apply search_from_inv in H as (pre & s' & _ & H).
  apply rmatch_group_count in H as (? & ? & groups' & [= <-] & Hlen). done.
Qed.

(** Groups are numbered by their opening parentheses, as [re] numbers
    them: in [((a)(b))] the enclosing group comes first. *)
Example groups_by_opening_parenthesis :
  re_search (Group (Seq (Group (Atom (Chr "a"))) (Group (Atom (Chr "b"))))) "ab"
  = Some ["ab"; "a"; "b"].
Proof. reflexivity. Qed.

(** *** The third route *)

Lemma plus_loop_Dot_all key pos k :
  key <> "" -> has_newline key = false ->
  is_Some (k (pos + String.length key)%nat "") ->
  plus_loop Dot pos key k = k (pos + String.length key)%nat "".
Proof.
  revert pos. induction key as [|c key IH]; intros pos Hne Hnl Hk; [done |].
  simpl in Hnl. apply orb_false_iff in Hnl as [Hc Hnl].
  cbn [plus_loop atom_matches]. rewrite Hc. cbn [negb].
  replace (pos + String.length (String c key))%nat
    with (S pos + String.length key)%nat in * by (simpl; lia).
  destruct key as [|c' key].
  - simpl. by rewrite Nat.add_0_r.
  - rewrite IH by done. by destruct Hk as [m ->].
Qed.

Lemma substring_all s : substring 0 (String.length s) s = s.
Proof. induction s as [|c s IH]; simpl; [done | by rewrite IH]. Qed.

Lemma re_search_view key :
  key <> "" -> has_newline key = false ->
  re_search (lit "view_photo/" (Seq (Group (PlusA Dot)) Eol)) ("view_photo/" +:+ key)
    = Some [key].
Proof.
  intros Hne Hnl. unfold re_search.
  assert (Hm : rmatch ("view_photo/" +:+ key)
                 (lit "view_photo/" (Seq (Group (PlusA Dot)) Eol)) 0
                 ("view_photo/" +:+ key) [] accept = Some [key]).
  { rewrite rmatch_lit. cbn [rmatch String.length Nat.add].
    rewrite plus_loop_Dot_all; [| done | done |].
    - cbn [at_end app].
      replace (11 + String.length key - 11)%nat with (String.length key) by lia.
      change (substring 11 (String.length key) ("view_photo/" +:+ key))
        with (substring 0 (String.length key) key).
      by rewrite substring_all.
    - cbn [at_end]. by eexists. }
  change (search_from ("view_photo/" +:+ key) ?r 0 ("view_photo/" +:+ key))
    with (search_from ("view_photo/" +:+ key) r 0
            (String "v" ("iew_photo/" +:+ key))).
  cbn [search_from].
  change (String "v" ("iew_photo/" +:+ key)) with ("view_photo/" +:+ key).
  by rewrite Hm.
Qed.

Lemma view_photo_route (environ : gmap string value) (key : string) :
  stripped_path environ = Ok ("view_photo/" +:+ key) ->
  key <> "" -> has_newline key = false ->
  ~ upload_shaped ("view_photo/" +:+ key) ->
  Application_call urls environ =
    Ok (Dispatch ViewPhotoHandler (<["app.url_args" := VList [VStr key]]> environ)).
Proof.
  intros Hpath Hne Hnl Hshape. unfold Application_call. rewrite Hpath. cbn [bind].
  unfold urls. cbn [route].
  rewrite re_search_Bol_Eol by reflexivity.
  destruct (re_search (lit "upload_photo" _) _) as [g|] eqn:Hg.
  - destruct Hshape. by eapply re_search_upload_inv.
  - by rewrite re_search_view.
Qed.

(** X13. With the route table [urls], a stripped path [view_photo/<key>],
    where the key is not empty and has no newline, reaches
    [ViewPhotoHandler] with the whole remainder of the path, slashes
    included, as its one URL argument, unless the path is one that the
    upload route takes first. *)
Theorem view_photo_dispatch (environ : gmap string value) (key : string) :
  stripped_path environ = Ok ("view_photo/" +:+ key) ->
  key <> "" -> has_newline key = false ->
  ~ upload_shaped ("view_photo/" +:+ key) ->
  Application_call urls environ =
    Ok (Dispatch ViewPhotoHandler (<["app.url_args" := VList [VStr key]]> environ)).
Proof. apply view_photo_route. Qed.

Lemma string_length_app s1 s2 :
  String.length (s1 +:+ s2) = (String.length s1 + String.length s2)%nat.
Proof. induction s1 as [|c s1 IH]; simpl; [done | by rewrite IH]. Qed.

Lemma view_photo_dispatch_witness :
  Application_call urls {["PATH_INFO" := VStr "/view_photo/a/b"]} =
    Ok (Dispatch ViewPhotoHandler
          (<["app.url_args" := VList [VStr "a/b"]]> {["PATH_INFO" := VStr "/view_photo/a/b"]})).
Proof.
  apply (view_photo_dispatch {["PATH_INFO" := VStr "/view_photo/a/b"]} "a/b").
  - reflexivity.
  - discriminate.
  - reflexivity.
  - intros (pre & tail & Heq & Htail).
    assert (Hlen := f_equal String.length Heq).
    rewrite !string_length_app in Hlen. simpl in Hlen.
    unfold upload_tails in Htail.
    repeat (apply elem_of_cons in Htail as [-> | Htail];
      [destruct pre as [|? [|? [|? pre]]]; simpl in *; try lia; discriminate |]).
    by apply elem_of_nil in Htail.
Defined.

(** *** From the upload to the download *)

Section HandlerFacts.
Variable blobstore_get : value -> bool.
Variable send_blob : gmap string value -> value -> list (string * string).
Variable get_uploads : gmap string value -> list string.
Variable get_current_user : option (option string).
Variable put : UserPhoto -> result unit.


(** X15. [ViewPhotoHandler.get] always finds its URL argument when it is
    called through the application: whenever the route table [urls]
    dispatches a request to [ViewPhotoHandler], the environ it passes holds
    exactly one URL argument, a string, so [get] raises neither [KeyError]
    nor [IndexError] and answers for that key, 404 with
    [Photo key not found] when the blobstore has no such blob and 200 with
    the headers of [send_blob] otherwise. *)
Theorem view_photo_has_key (environ environ' : gmap string value) :
  Application_call urls environ = Ok (Dispatch ViewPhotoHandler environ') ->
  exists key,
    environ' = <["app.url_args" := VList [VStr key]]> environ /\
    get blobstore_get send_blob environ' =
      GetReply (if blobstore_get (VStr key)
                then Reply "" 200 (send_blob environ' (VStr key))
                else Reply "Photo key not found" 404 []).
Proof.
  unfold Application_call.
  destruct (stripped_path environ) as [path|]; [| discriminate]. cbn [bind].
  unfold urls. cbn [route].
  destruct (re_search (Seq Bol Eol) path); [discriminate |].
  destruct (re_search (lit "upload_photo" _) path); [discriminate |].
  destruct (re_search (lit "view_photo/" _) path) as [g|] eqn:Hg; [| discriminate].
  intros [= <-]. apply search_from_group_count in Hg. cbn in Hg.
  destruct g as [|key [|? ?]]; try discriminate.
  exists key. split; [reflexivity |].
  unfold get, get_photo. rewrite lookup_insert_eq. cbn.
  by destruct (blobstore_get (VStr key)).
Qed.

End HandlerFacts.

Lemma view_photo_has_key_witness :
  exists key,
    <["app.url_args" := VList [VStr "a/b"]]> {["PATH_INFO" := VStr "/view_photo/a/b"]} =
      <["app.url_args" := VList [VStr key]]>
        ({["PATH_INFO" := VStr "/view_photo/a/b"]} : gmap string value) /\
    get no_blob no_headers
      (<["app.url_args" := VList [VStr "a/b"]]> {["PATH_INFO" := VStr "/view_photo/a/b"]}) =
      GetReply (if no_blob (VStr key)
                then Reply "" 200
                       (no_headers
                          (<["app.url_args" := VList [VStr "a/b"]]>
                             {["PATH_INFO" := VStr "/view_photo/a/b"]}) (VStr key))
                else Reply "Photo key not found" 404 []).
Proof.
  apply (view_photo_has_key no_blob no_headers {["PATH_INFO" := VStr "/view_photo/a/b"]}).
  reflexivity.
Defined.


End BlobstoreFacts.

(** ** The set-up of the streaming test *)

Module StreamingBeamTestFacts.
Import Py StreamingBeamTest.

(** X16. In [create_topic_path] and [create_subscription] a failed
    deletion does not matter: whether the deletion returns or raises an
    exception that derives from [Exception], the creation is requested
    next and its outcome is the outcome of the function; an exception that
    does not derive from [Exception] ([SystemExit], [KeyboardInterrupt],
    [GeneratorExit]) is not caught: it leaves the function before the
    creation is requested. *)
Theorem deletion_failure_is_ignored (clients : PubSubClients) (PROJECT topic : string) :
  let path := topic_path clients PROJECT TOPIC in
  let sub_path := subscription_path clients PROJECT SUBSCRIPTION in
  ((forall e, delete_topic clients path = Raise e -> is_Exception e = true) ->
     create_topic_path clients PROJECT =
       ([DeleteTopic path; CreateTopic path], create_topic clients path)) /\
  ((forall e, delete_subscription clients sub_path = Raise e -> is_Exception e = true) ->
     create_subscription clients PROJECT topic =
       ([DeleteSubscription sub_path; CreateSubscription sub_path topic],
        create_subscription_rpc clients sub_path topic)) /\
  (forall e, delete_topic clients path = Raise e -> is_Exception e = false ->
     create_topic_path clients PROJECT = ([DeleteTopic path], Raise e)) /\
  (forall e, delete_subscription clients sub_path = Raise e -> is_Exception e = false ->
     create_subscription clients PROJECT topic = ([DeleteSubscription sub_path], Raise e)).
Proof.
  intros path sub_path. unfold create_topic_path, create_subscription, try_pass.
  fold path sub_path. repeat split.
  - intros H. destruct (delete_topic clients path) as [|e]; [done |].
    by rewrite (H e eq_refl).
  - intros H. destruct (delete_subscription clients sub_path) as [|e]; [done |].
    by rewrite (H e eq_refl).
  - intros e -> He. by rewrite He.
  - intros e -> He. by rewrite He.
Qed.

Lemma deletion_failure_is_ignored_witness :
  create_topic_path first_run "p" =
    ([DeleteTopic "projects/p/topics/messages"; CreateTopic "projects/p/topics/messages"],
     Ok "projects/p/topics/messages") /\
  create_topic_path interrupted "p" =
    ([DeleteTopic "projects/p/topics/messages"],
     Raise (NonException "KeyboardInterrupt")).
Proof.
  split.
  - apply (proj1 (deletion_failure_is_ignored first_run "p" "")).
    by intros e [= <-].
  - apply (proj1 (proj2 (proj2 (deletion_failure_is_ignored interrupted "p" "")))
             (NonException "KeyboardInterrupt")); reflexivity.
Defined.

(** X17. When the set-up of the test succeeds, it has sent four requests in
    this order: delete the topic, create it, delete the subscription,
    create it; and the subscription is created on the name that the topic
    creation returned, which is also the topic that the test goes on
    with. *)
Theorem set_up_calls (clients : PubSubClients) (PROJECT topic sub : string)
    (calls : list call) :
  set_up clients PROJECT = (calls, Ok (topic, sub)) ->
  let path := topic_path clients PROJECT TOPIC in
  let sub_path := subscription_path clients PROJECT SUBSCRIPTION in
  calls = [DeleteTopic path; CreateTopic path;
           DeleteSubscription sub_path; CreateSubscription sub_path topic] /\
  create_topic clients path = Ok topic /\
  create_subscription_rpc clients sub_path topic = Ok sub.
Proof.
  unfold set_up, create_topic_path, create_subscription.
  destruct (try_pass (delete_topic clients _)); [discriminate |].
  destruct (create_topic clients _) as [topic'|] eqn:Ht; [| discriminate].
  destruct (try_pass (delete_subscription clients _)); [discriminate |].
  destruct (create_subscription_rpc clients _ topic') as [sub'|] eqn:Hs; [| discriminate].
  intros [= <- <- <-]. auto.
Qed.

Lemma set_up_calls_witness :
  (set_up first_run "p").1 =
    [DeleteTopic "projects/p/topics/messages"; CreateTopic "projects/p/topics/messages";
     DeleteSubscription "projects/p/subscriptions/messages";
     CreateSubscription "projects/p/subscriptions/messages" "projects/p/topics/messages"] /\
  create_topic first_run "projects/p/topics/messages" = Ok "projects/p/topics/messages" /\
  create_subscription_rpc first_run "projects/p/subscriptions/messages"
    "projects/p/topics/messages" = Ok "projects/p/subscriptions/messages".
Proof.
  exact (set_up_calls first_run "p" "projects/p/topics/messages"
           "projects/p/subscriptions/messages" _ eq_refl).
Defined.

End StreamingBeamTestFacts.
